(** * The event listener of backend/app/main.py

    A shallow embedding of the cursor store ([load_last_block],
    [reset_last_block], [save_last_block]) and of the polling loop
    [network_validator_listener], followed by the properties of the loop
    that the design document states.

    Python integers are unbounded and are modelled by [Z].  Python code that
    may raise is modelled in a state-and-exception monad [Py S A]; the state
    threads the objects that the source mutates in place (the cache, the
    off-chain store, the [seen_logs] set, the [last_block] local) together
    with a trace of the externally visible actions (prints, sleeps, RPC
    calls, handler calls, cache writes). *)

From Stdlib Require Import ZArith String Ascii List Lia.
From Stdlib Require Import DecimalString DecimalZ DecimalPos.
From stdpp Require Import base gmap strings list.

Open Scope Z_scope.
Open Scope string_scope.
Open Scope list_scope.

(** ** Python values and exceptions *)

#[local] Set Warnings "-register-all".

(** The Python values that the listener inspects: what a cache may hand
    back, what a [ValueError] carries in [args], and JSON-like ABI data.
    [PyStr s] is a [str] of ASCII characters and [PyBytes bs] a [bytes]
    object, both given by their characters; a [str] with other characters,
    floats and objects of other classes are outside the model. *)
Inductive pyval : Type :=
| PyNone
| PyBool (b : bool)
| PyInt (z : Z)
| PyStr (s : string)
| PyBytes (bs : string)
| PyList (l : list pyval)
| PyDict (d : gmap string pyval).

(** The exceptions, all subclasses of [Exception]. *)
Inductive exn : Type :=
| ValueError (args : list pyval)
| TypeError
| KeyError (k : string)
| IndexError
| OtherException (name : string).

Inductive result (A : Type) : Type :=
| Ok (a : A)
| Raise (e : exn).
Arguments Ok {A} a.
Arguments Raise {A} e.

(** ** The state-and-exception monad *)

Definition Py (S A : Type) : Type := S -> S * result A.

Definition ret {S A} (a : A) : Py S A := fun s => (s, Ok a).

Definition raise {S A} (e : exn) : Py S A := fun s => (s, Raise e).

Definition bind {S A B} (m : Py S A) (k : A -> Py S B) : Py S B :=
  fun s => match m s with
           | (s', Ok a) => k a s'
           | (s', Raise e) => (s', Raise e)
           end.

(** [try: m except Exception as e: h e]; the state changes that [m] made
    before raising are kept, as for Python objects mutated in place. *)
Definition try_except {S A} (m : Py S A) (h : exn -> Py S A) : Py S A :=
  fun s => match m s with
           | (s', Ok a) => (s', Ok a)
           | (s', Raise e) => h e s'
           end.

Definition get {S} : Py S S := fun s => (s, Ok s).
Definition modify {S} (f : S -> S) : Py S unit := fun s => (f s, Ok tt).
Definition of_result {S A} (r : result A) : Py S A := fun s => (s, r).

Notation "'let!' x ':=' m 'in' k" := (bind m (fun x => k))
  (at level 10, x name, m at level 100, k at level 200).
Notation "'do!' m 'in' k" := (bind m (fun _ => k))
  (at level 10, m at level 100, k at level 200).

(** ** [str] and [int] on the values of the model *)

(** [str(n)] for an integer: the decimal numeral, with [-] when negative. *)
Definition py_str (n : Z) : string := NilZero.string_of_int (Z.to_int n).

(** The white space that [int] drops around a literal: tab, line feed,
    vertical tab, form feed, carriage return and space. *)
Definition is_space (c : ascii) : bool :=
  let n := N_of_ascii c in
  ((9 <=? n) && (n <=? 13) || (n =? 32))%N.

Definition digit_of (c : ascii) : option Z :=
  let n := N_of_ascii c in
  if ((48 <=? n) && (n <=? 57))%N then Some (Z.of_N n - 48) else None.

Fixpoint lstrip (l : list ascii) : list ascii :=
  match l with
  | c :: l' => if is_space c then lstrip l' else l
  | [] => []
  end.

Definition strip (l : list ascii) : list ascii :=
  rev (lstrip (rev (lstrip l))).

(** Decimal digits with single underscores between them; [prev] tells
    whether the previous character was a digit. *)
Fixpoint digits_val (acc : Z) (prev : bool) (l : list ascii) : option Z :=
  match l with
  | [] => if prev then Some acc else None
  | c :: l' =>
      match digit_of c with
      | Some d => digits_val (10 * acc + d) true l'
      | None =>
          if Ascii.eqb c "_"%char
          then (if prev then digits_val acc false l' else None)
          else None
      end
  end.

(** [int(s)] for a [str] of ASCII characters or for [bytes]: surrounding
    white space is dropped, one sign is allowed, then decimal digits with
    single underscores between them.  [None] is [ValueError].  The bound
    that recent interpreters put on the number of digits is not modelled. *)
Definition int_of_str (s : string) : option Z :=
  match strip (list_ascii_of_string s) with
  | "-"%char :: l => Z.opp <$> digits_val 0 false l
  | "+"%char :: l => digits_val 0 false l
  | l => digits_val 0 false l
  end.

(** [int(val)]. *)
Definition py_int (val : pyval) : result Z :=
  match val with
  | PyInt z => Ok z
  | PyBool b => Ok (if b then 1 else 0)
  | PyStr s | PyBytes s =>
      match int_of_str s with
      | Some z => Ok z
      | None => Raise (ValueError [PyStr "invalid literal for int()"])
      end
  | PyNone | PyList _ | PyDict _ => Raise TypeError
  end.

(** [val is not None]. *)
Definition is_not_None (val : pyval) : bool :=
  match val with PyNone => false | _ => true end.

(** [isinstance(err, dict) and err.get("code") == -32000]. *)
Definition is_pruned_code (err : pyval) : bool :=
  match err with
  | PyDict d =>
      match d !! "code" with
      | Some (PyInt c) => Z.eqb c (-32000)
      | _ => false
      end
  | _ => false
  end.

(** [HexBytes.hex()]: two lower-case hexadecimal digits per byte, without
    a prefix. *)
Definition hex_digit (n : N) : ascii :=
  if (n <? 10)%N then ascii_of_N (48 + n) else ascii_of_N (87 + n).

Fixpoint hex (bs : list Byte.byte) : string :=
  match bs with
  | [] => EmptyString
  | b :: bs' =>
      let n := Byte.to_N b in
      String (hex_digit (n / 16)) (String (hex_digit (n mod 16)) (hex bs'))
  end.

(** ** The objects the listener talks to *)

(** The cache object, used through [cache.get(key)] and
    [cache.set(key, value)] only.  Either call may raise; [get] answers
    [PyNone] for a key it does not hold. *)
Class CacheLike (C : Type) : Type := {
  cache_get : C -> string -> result pyval;
  cache_set : C -> string -> pyval -> C * result unit
}.

(** A dictionary-backed cache whose backend can refuse reads or writes (an
    unreachable server, a full disk): the call then raises, and a failed
    write stores nothing. *)
Record DictCache : Type := {
  entries : gmap string pyval;
  readable : bool;
  writable : bool
}.

#[export] Instance DictCache_CacheLike : CacheLike DictCache := {|
  cache_get c key :=
    if readable c then Ok (default PyNone (entries c !! key))
    else Raise (OtherException "ConnectionError");
  cache_set c key val :=
    if writable c
    then ({| entries := <[key := val]> (entries c);
             readable := readable c; writable := writable c |}, Ok tt)
    else (c, Raise (OtherException "OSError"))
|}.

(** One decoded log as the provider returns it; the loop reads
    [ev['transactionHash']] and [ev['logIndex']], which a log always has. *)
Record RawLogEvent : Type := {
  address : string;
  event : string;
  args : pyval;
  transactionHash : list Byte.byte;
  logIndex : Z;
  blockNumber : Z
}.

(** A contract instance [w3.eth.contract(address=..., abi=...)]. *)
Record Contract : Type := {
  contract_address : string;
  contract_abi : pyval
}.

(** What [w3] answers during one pass of the loop body: the chain height
    [w3.eth.block_number] and, for a contract, an event name and a block
    range, the outcome of [get_logs]. *)
Record TickEnv : Type := {
  block_number : result Z;
  get_logs : Contract -> string -> Z -> Z -> result (list RawLogEvent)
}.

(** The lines the code prints. *)
Inductive Message : Type :=
| MsgSaveFailed (key : string) (e : exn)
| MsgListening (network : string) (n : nat) (from_block : Z)
| MsgPruned (network : string) (current_block : Z)
| MsgListenerError (network : string) (e : exn).

(** The actions of a run, in the order they happen: lines printed, sleeps,
    [cache.set] calls, [get_logs] calls, handler calls, and the
    assignments to the local [last_block] inside the loop (recorded so
    that a property can speak about each assignment). *)
Inductive Action : Type :=
| APrint (m : Message)
| ASleep (secs : Z)
| ACacheSet (key : string) (val : pyval)
| AGetLogs (registry_name event_name : string) (from_block to_block : Z)
| AHandler (ev : RawLogEvent)
| ASetLastBlock (n : Z).

(** The world outside the listener's locals: the shared cache, the
    off-chain store handed to the handlers, and the trace so far. *)
Record World (C D : Type) : Type := {
  cache : C;
  offchain_db : D;
  trace : list Action
}.
Arguments cache {C D} w.
Arguments offchain_db {C D} w.
Arguments trace {C D} w.

Definition emit {C D} (a : Action) : Py (World C D) unit :=
  modify (fun w => {| cache := cache w; offchain_db := offchain_db w;
                      trace := trace w ++ [a] |}).

Definition print {C D} (m : Message) : Py (World C D) unit := emit (APrint m).
Definition sleep {C D} (secs : Z) : Py (World C D) unit := emit (ASleep secs).

(** ** The cursor store *)

Section CursorStore.
Context {C D : Type} {cache_ops : CacheLike C}.

(** [cache.get(key)] *)
Definition cache_get_call (key : string) : Py (World C D) pyval :=
  fun w => (w, cache_get (cache w) key).

(** [cache.set(key, val)] *)
Definition cache_set_call (key : string) (val : pyval) : Py (World C D) unit :=
  fun w =>
    let (c', r) := cache_set (cache w) key val in
    ({| cache := c'; offchain_db := offchain_db w;
        trace := trace w ++ [ACacheSet key val] |}, r).

(** The [return int(val)] inside [try] leaves the function with a value;
    falling out of the [try] or being caught by [except Exception: pass]
    reaches [return default]. *)
Definition load_last_block (key : string) (default : Z) : Py (World C D) Z :=
  let! returned :=
    try_except
      (let! val := cache_get_call key in
       if is_not_None val
       then (let! n := of_result (py_int val) in ret (Some n))
       else ret None)
      (fun _ => ret None) in
  match returned with
  | Some n => ret n
  | None => ret default
  end.

Definition reset_last_block (key : string) (new_value : Z)
    : Py (World C D) unit :=
  cache_set_call key (PyStr (py_str new_value)).

Definition save_last_block (key : string) (block_number : Z)
    : Py (World C D) unit :=
  try_except
    (cache_set_call key (PyStr (py_str block_number)))
    (fun e => print (MsgSaveFailed key e)).
End CursorStore.

(** ** The listener *)

(** [(network, tx_hash, idx)] *)
Definition DedupeKey : Type := string * string * Z.

(** The locals of [network_validator_listener] that the loop mutates, with
    the world they live in. *)
Record State (C D : Type) : Type := {
  seen_logs : gset DedupeKey;
  last_block : Z;
  world : World C D
}.
Arguments seen_logs {C D} s.
Arguments last_block {C D} s.
Arguments world {C D} s.

(** Python's [for x in l: body]. *)
Fixpoint for_each {S A} (l : list A) (body : A -> Py S unit) : Py S unit :=
  match l with
  | [] => ret tt
  | x :: l' => do! body x in for_each l' body
  end.

(** The registries to poll: every entry of [registry_contracts] in
    dictionary order except ["ValidatorRegistry"], each with the ABI found
    under its name; [abi_map[registry_name]] raises [KeyError] when the
    name is missing.  Building the contract instance itself is taken to
    succeed here; [prepare_contracts_with] leaves its outcome open. *)
Fixpoint prepare_contracts (registry_contracts : list (string * string))
    (abi_map : gmap string pyval) : result (list (string * Contract)) :=
  match registry_contracts with
  | [] => Ok []
  | (registry_name, registry_address) :: rest =>
      if String.eqb registry_name "ValidatorRegistry"
      then prepare_contracts rest abi_map
      else
        match abi_map !! registry_name with
        | None => Raise (KeyError registry_name)
        | Some abi =>
            match prepare_contracts rest abi_map with
            | Ok contracts =>
                Ok ((registry_name,
                     {| contract_address := registry_address;
                        contract_abi := abi |}) :: contracts)
            | Raise e => Raise e
            end
        end
  end.

(** The same loop with the outcome of
    [w3.eth.contract(address=registry_address, abi=abi)] left open:
    [contract_of registry_address abi] is the instance built, or the error
    that the constructor raises, which ends the loop. *)
Fixpoint prepare_contracts_with
    (contract_of : string -> pyval -> result Contract)
    (registry_contracts : list (string * string))
    (abi_map : gmap string pyval) : result (list (string * Contract)) :=
  match registry_contracts with
  | [] => Ok []
  | (registry_name, registry_address) :: rest =>
      if String.eqb registry_name "ValidatorRegistry"
      then prepare_contracts_with contract_of rest abi_map
      else
        match abi_map !! registry_name with
        | None => Raise (KeyError registry_name)
        | Some abi =>
            match contract_of registry_address abi with
            | Raise e => Raise e
            | Ok contract =>
                match prepare_contracts_with contract_of rest abi_map with
                | Ok contracts => Ok ((registry_name, contract) :: contracts)
                | Raise e => Raise e
                end
            end
        end
  end.

(** The constructor that always returns. *)
Definition contract_built (registry_address : string) (abi : pyval)
    : result Contract :=
  Ok {| contract_address := registry_address; contract_abi := abi |}.

Section Listener.
Context {C D : Type} {cache_ops : CacheLike C}.

(** The parameters [network] and [ev_func]; a handler works on the
    off-chain store and may raise. *)
Variable network : string.
Variable ev_func : RawLogEvent -> D -> D * result unit.

Definition HandlerFn : Type := RawLogEvent -> D -> D * result unit.

Definition last_block_key : string := (network ++ "_all_contracts")%string.

(** Running a cursor-store or printing action from inside the loop. *)
Definition lift {A} (m : Py (World C D) A) : Py (State C D) A :=
  fun st =>
    let (w', r) := m (world st) in
    ({| seen_logs := seen_logs st; last_block := last_block st;
        world := w' |}, r).

(** [last_block = n] *)
Definition set_last_block (n : Z) : Py (State C D) unit :=
  do! lift (emit (ASetLastBlock n)) in
  modify (fun st => {| seen_logs := seen_logs st; last_block := n;
                       world := world st |}).

(** [seen_logs.add(dedupe_key)] *)
Definition seen_logs_add (k : DedupeKey) : Py (State C D) unit :=
  modify (fun st => {| seen_logs := {[k]} ∪ seen_logs st;
                       last_block := last_block st; world := world st |}).

(** [handler(ev, offchain_db)] *)
Definition call_handler (handler : HandlerFn) (ev : RawLogEvent)
    : Py (State C D) unit :=
  fun st =>
    let w := world st in
    let (db', r) := handler ev (offchain_db w) in
    ({| seen_logs := seen_logs st; last_block := last_block st;
        world := {| cache := cache w; offchain_db := db';
                    trace := trace w ++ [AHandler ev] |} |}, r).

(** [getattr(contract.events, event_name).get_logs(from_block=last_block + 1,
    to_block=current_block)] *)
Definition get_logs_call (env : TickEnv) (registry_name : string)
    (contract : Contract) (event_name : string) (current_block : Z)
    : Py (State C D) (list RawLogEvent) :=
  let! st := get in
  let from_block := last_block st + 1 in
  do! lift (emit (AGetLogs registry_name event_name from_block
                    current_block)) in
  of_result (get_logs env contract event_name from_block current_block).

Definition dedupe_key_of (ev : RawLogEvent) : DedupeKey :=
  let tx_hash := hex (transactionHash ev) in
  let idx := logIndex ev in
  (network, tx_hash, idx).

(** The body of [for ev in logs]. *)
Definition dispatch (handler : HandlerFn) (ev : RawLogEvent)
    : Py (State C D) unit :=
  let dedupe_key := dedupe_key_of ev in
  let! st := get in
  if decide (dedupe_key ∈ seen_logs st) then ret tt
  else
    do! seen_logs_add dedupe_key in
    call_handler handler ev.

(** The [except ValueError as e] clause: [e.args[0]] raises [IndexError]
    on empty [args]; the pruned case answers [None] for [continue]. *)
Definition on_get_logs_error (current_block : Z) (e : exn)
    : Py (State C D) (option (list RawLogEvent)) :=
  match e with
  | ValueError e_args =>
      match e_args with
      | [] => raise IndexError
      | err :: _ =>
          if is_pruned_code err then
            do! lift (print (MsgPruned network current_block)) in
            do! set_last_block current_block in
            ret None
          else raise e
      end
  | _ => raise e
  end.

(** The body of [for event_name, handler in [...]]. *)
Definition poll_event (env : TickEnv) (current_block : Z)
    (registry_name : string) (contract : Contract)
    (sub : string * HandlerFn) : Py (State C D) unit :=
  let (event_name, handler) := sub in
  let! fetched :=
    try_except
      (let! logs := get_logs_call env registry_name contract event_name
                      current_block in
       ret (Some logs))
      (on_get_logs_error current_block) in
  match fetched with
  | None => ret tt
  | Some logs => for_each logs (dispatch handler)
  end.

Definition subscriptions : list (string * HandlerFn) :=
  [("PostProof", ev_func)].

(** The body of [for registry_name, contract in contracts]. *)
Definition poll_contract (env : TickEnv) (current_block : Z)
    (rc : string * Contract) : Py (State C D) unit :=
  let (registry_name, contract) := rc in
  for_each subscriptions (poll_event env current_block registry_name contract).

Definition sweep (env : TickEnv) (current_block : Z)
    (contracts : list (string * Contract)) : Py (State C D) unit :=
  for_each contracts (poll_contract env current_block).

(** The [try] block of the loop body. *)
Definition tick_body (env : TickEnv) (contracts : list (string * Contract))
    : Py (State C D) unit :=
  let! current_block := of_result (block_number env) in
  let! st := get in
  do! (if current_block >? last_block st then
         do! sweep env current_block contracts in
         do! set_last_block current_block in
         let! st' := get in
         lift (save_last_block last_block_key (last_block st'))
       else ret tt) in
  lift (sleep 3).

(** One pass of [while True]. *)
Definition tick (env : TickEnv) (contracts : list (string * Contract))
    : Py (State C D) unit :=
  try_except
    (tick_body env contracts)
    (fun e =>
       do! lift (print (MsgListenerError network e)) in
       lift (sleep 5)).

(** The first passes of [while True], one per element of [envs]. *)
Definition run (envs : list TickEnv) (contracts : list (string * Contract))
    : Py (State C D) unit :=
  for_each envs (fun env => tick env contracts).

(** The code before [while True]: [height] is what [w3.eth.block_number]
    answers when the default of [load_last_block] is computed.  The
    result holds the locals [seen_logs], [last_block] and [contracts]. *)
Definition listener_init (height : result Z)
    (registry_contracts : list (string * string))
    (abi_map : gmap string pyval)
    : Py (World C D) (gset DedupeKey * Z * list (string * Contract)) :=
  let seen : gset DedupeKey := ∅ in
  let! h := of_result height in
  let! lb := load_last_block last_block_key (h - 1) in
  let! contracts := of_result (prepare_contracts registry_contracts abi_map) in
  do! print (MsgListening network (length contracts) (lb + 1)) in
  ret (seen, lb, contracts).

(** [network_validator_listener], cut after [length envs] passes of the
    loop. *)
Definition network_validator_listener (height : result Z)
    (registry_contracts : list (string * string))
    (abi_map : gmap string pyval) (envs : list TickEnv)
    : Py (World C D) unit :=
  fun w =>
    match listener_init height registry_contracts abi_map w with
    | (w1, Raise e) => (w1, Raise e)
    | (w1, Ok (seen, lb, contracts)) =>
        let (st, r) :=
          run envs contracts
            {| seen_logs := seen; last_block := lb; world := w1 |} in
        (world st, r)
    end.
End Listener.


(** * The vocabulary of the statements *)

(** The events handed to a handler, in call order. *)
Definition handled (tr : list Action) : list RawLogEvent :=
  omap (fun a => match a with AHandler ev => Some ev | _ => None end) tr.

(** The values assigned to [last_block], in order. *)
Definition assigned (tr : list Action) : list Z :=
  omap (fun a => match a with ASetLastBlock n => Some n | _ => None end) tr.

(** The [cache.set] calls, in order. *)
Definition cache_writes (tr : list Action) : list (string * pyval) :=
  omap (fun a => match a with ACacheSet k v => Some (k, v) | _ => None end) tr.

(** [chain c l]: starting from [c], no element of [l] is below its
    predecessor. *)
Fixpoint chain (c : Z) (l : list Z) : Prop :=
  match l with
  | [] => True
  | x :: l' => c <= x /\ chain x l'
  end.

(** The last element of [c :: l]. *)
Fixpoint last_from (c : Z) (l : list Z) : Z :=
  match l with
  | [] => c
  | x :: l' => last_from x l'
  end.

(** Actions that touch neither the cursor, nor the dedup set, nor the
    provider. *)
Definition neutral (a : Action) : Prop :=
  match a with
  | APrint _ | ASleep _ | ACacheSet _ _ => True
  | _ => False
  end.

(** The actions of a sweep over the contracts. *)
Definition sweep_action (a : Action) : Prop :=
  match a with
  | AGetLogs _ _ _ _ | AHandler _ | ASetLastBlock _ => True
  | APrint (MsgPruned _ _) => True
  | _ => False
  end.

(** The pruned-range condition on what [get_logs] raised. *)
Definition is_pruned_error (e : exn) : bool :=
  match e with
  | ValueError (err :: _) => is_pruned_code err
  | _ => false
  end.

Definition fetch_pruned {R} (r : result R) : bool :=
  match r with
  | Raise e => is_pruned_error e
  | Ok _ => false
  end.

(** What leaves the [except ValueError] clause when it does not handle the
    error: the error itself, or [IndexError] from [e.args[0]]. *)
Definition raised_by (e : exn) : exn :=
  match e with
  | ValueError [] => IndexError
  | _ => e
  end.

(** The identity of a log: [(network, transactionHash, logIndex)]. *)
Definition event_identity (network : string) (ev : RawLogEvent)
    : string * list Byte.byte * Z :=
  (network, transactionHash ev, logIndex ev).

(** [covered contracts lb0 tr n]: for every contract, every block above
    [lb0] and up to [n] lies in the range of a ["PostProof"] fetch of
    [tr] for that contract. *)
Definition covered (contracts : list (string * Contract)) (lb0 : Z)
    (tr : list Action) (n : Z) : Prop :=
  forall rn c, (rn, c) ∈ contracts ->
    forall b, lb0 < b <= n ->
      exists f t, AGetLogs rn "PostProof" f t ∈ tr /\ f <= b <= t.

(** [pruned_skip network tr rn f t]: in [tr], the fetch of the range from
    [f] to [t] for the registry [rn] is followed at once by the warning
    that the loop prints in its pruned-range clause, and nowhere else:
    that fetch was answered with the pruned-range error. *)
Definition pruned_skip (network : string) (tr : list Action) (rn : string)
    (f t : Z) : Prop :=
  exists l1 l2,
    tr = l1 ++ AGetLogs rn "PostProof" f t :: APrint (MsgPruned network t) :: l2.

(** [fetched_or_skipped network before rn lb0 tr n]: every block above
    [lb0] and up to [n] lies in the range of a ["PostProof"] fetch of [tr]
    for the registry [rn], or in a range whose fetch for one of the
    contracts [before] was answered with the pruned-range error. *)
Definition fetched_or_skipped (network : string)
    (before : list (string * Contract)) (rn : string) (lb0 : Z)
    (tr : list Action) (n : Z) : Prop :=
  forall b, lb0 < b <= n ->
    (exists f t, AGetLogs rn "PostProof" f t ∈ tr /\ f <= b <= t)
    \/ (exists rn' c' f t,
          (rn', c') ∈ before /\ pruned_skip network tr rn' f t /\ f <= b <= t).

(** [accounted network contracts lb0 tr n]: the same for every contract of
    the list, [before] being the contracts that the sweep polls before
    it. *)
Definition accounted (network : string)
    (contracts : list (string * Contract)) (lb0 : Z) (tr : list Action)
    (n : Z) : Prop :=
  forall before rn c after, contracts = before ++ (rn, c) :: after ->
    fetched_or_skipped network before rn lb0 tr n.

(** [pass_accounted network contracts lb h p]: among the actions [p] of a
    pass that read the height [h] with the cursor at [lb], the range from
    [lb + 1] to [h] was fetched for every contract, or it was fetched for
    the contracts up to one for which the fetch was answered with the
    pruned-range error. *)
Definition pass_accounted (network : string)
    (contracts : list (string * Contract)) (lb h : Z) (p : list Action)
    : Prop :=
  (forall rn c, (rn, c) ∈ contracts ->
     AGetLogs rn "PostProof" (lb + 1) h ∈ p)
  \/ (exists d1 rnj cj rest,
        contracts = d1 ++ (rnj, cj) :: rest
        /\ pruned_skip network p rnj (lb + 1) h
        /\ forall rn c, (rn, c) ∈ d1 ->
             AGetLogs rn "PostProof" (lb + 1) h ∈ p).

Section Vocabulary.
Context {C D : Type} {cache_ops : CacheLike C}.
Variable network : string.

(** [steps st new st']: the state went from [st] to [st'] while the
    actions [new] were appended to the trace; the cursor only went up and
    ends at the last value assigned, every fetch started above the cursor
    of [st], every handler call was for a key that was new in [st] and is
    marked in [st'], and the cache changed only if it was written. *)
Definition steps (st : State C D) (new : list Action) (st' : State C D)
    : Prop :=
  trace (world st') = trace (world st) ++ new
  /\ seen_logs st ⊆ seen_logs st'
  /\ chain (last_block st) (assigned new)
  /\ last_block st' = last_from (last_block st) (assigned new)
  /\ (forall rn en f t, AGetLogs rn en f t ∈ new -> last_block st < f)
  /\ NoDup (dedupe_key_of network <$> handled new)
  /\ (forall ev, ev ∈ handled new ->
        (dedupe_key_of network ev ∉ seen_logs st)
        /\ (dedupe_key_of network ev ∈ seen_logs st'))
  /\ (cache_writes new = [] -> cache (world st') = cache (world st)).

(** The state after appending [new] to the trace and changing nothing
    else. *)
Definition add_trace (st : State C D) (new : list Action) : State C D :=
  {| seen_logs := seen_logs st; last_block := last_block st;
     world := {| cache := cache (world st);
                 offchain_db := offchain_db (world st);
                 trace := trace (world st) ++ new |} |}.

(** [hoare P A m]: from a state satisfying [P], the computation [m] makes
    [steps] with actions in [A] only and re-establishes [P], whether it
    returns or raises. *)
Definition hoare {R} (P : State C D -> Prop) (A : Action -> Prop)
    (m : Py (State C D) R) : Prop :=
  forall st, P st ->
    exists new, steps st new (fst (m st)) /\ P (fst (m st)) /\ Forall A new.

(** The [except Exception as e] clause of the loop body. *)
Definition backoff (e : exn) : Py (State C D) unit :=
  do! lift (print (MsgListenerError network e)) in
  lift (sleep 5).

(** The two statements after the [for] loops. *)
Definition commit (h : Z) : Py (State C D) unit :=
  do! set_last_block h in
  let! st' := get in
  lift (save_last_block (last_block_key network) (last_block st')).

(** The state after the pruned-range clause ran in [st] for the registry
    [rn]: the fetch, the warning, the cursor moved to [h]. *)
Definition skipped_to (h : Z) (rn : string) (st : State C D) : State C D :=
  {| seen_logs := seen_logs st;
     last_block := h;
     world := {| cache := cache (world st);
                 offchain_db := offchain_db (world st);
                 trace := trace (world st)
                          ++ [AGetLogs rn "PostProof" (last_block st + 1) h;
                              APrint (MsgPruned network h);
                              ASetLastBlock h] |} |}.

(** What [load_last_block] answers, read off the cache. *)
Definition stored_or (default : Z) (c : C) (key : string) : Z :=
  match cache_get c key with
  | Ok val =>
      if is_not_None val then
        match py_int val with
        | Ok n => n
        | Raise _ => default
        end
      else default
  | Raise _ => default
  end.

End Vocabulary.

(** ** Concrete registries, provider answers and handlers *)

Definition registry_A : string * Contract :=
  ("RegistryA", {| contract_address := "0xA"; contract_abi := PyList [] |}).

Definition registry_B : string * Contract :=
  ("RegistryB", {| contract_address := "0xB"; contract_abi := PyList [] |}).

(** The provider's "block out of range" answer, and a rate-limit answer. *)
Definition pruned_error : exn :=
  ValueError [PyDict {[ "code" := PyInt (-32000) ]}].

Definition rate_limited : exn :=
  ValueError [PyDict {[ "code" := PyInt (-32005) ]}].

(** Event X of contract A at block 50, log index 2. *)
Definition proof_at_50 : RawLogEvent :=
  {| address := "0xA"; event := "PostProof"; args := PyNone;
     transactionHash := [Byte.x0a; Byte.xbc]; logIndex := 2;
     blockNumber := 50 |}.

(** A handler that records the event in the off-chain store, and one that
    always fails. *)
Definition record_event (ev : RawLogEvent) (db : list RawLogEvent)
    : list RawLogEvent * result unit :=
  (ev :: db, Ok tt).

Definition failing_handler (ev : RawLogEvent) (db : list RawLogEvent)
    : list RawLogEvent * result unit :=
  (db, Raise (OtherException "RuntimeError")).

Definition fresh_world : World DictCache (list RawLogEvent) :=
  {| cache := {| entries := ∅; readable := true; writable := true |};
     offchain_db := [];
     trace := [] |}.

(** The loop state of a run that starts with the cursor at [cursor]. *)
Definition loop_state (cursor : Z) : State DictCache (list RawLogEvent) :=
  {| seen_logs := ∅; last_block := cursor; world := fresh_world |}.

Definition is_A (c : Contract) : bool := String.eqb (contract_address c) "0xA".

(** Height [h], no logs anywhere. *)
Definition quiet (h : Z) : TickEnv :=
  {| block_number := Ok h; get_logs _ _ _ _ := Ok [] |}.

(** Height [h]; the history asked of contract A is pruned. *)
Definition pruned_for_A (h : Z) : TickEnv :=
  {| block_number := Ok h;
     get_logs c _ _ _ := if is_A c then Raise pruned_error else Ok [] |}.

(** Height [h]; contract A is pruned and contract B is rate limited. *)
Definition pruned_A_limited_B (h : Z) : TickEnv :=
  {| block_number := Ok h;
     get_logs c _ _ _ :=
       if is_A c then Raise pruned_error else Raise rate_limited |}.

(** Height [h]; contract A is rate limited. *)
Definition limited_A (h : Z) : TickEnv :=
  {| block_number := Ok h;
     get_logs c _ _ _ := if is_A c then Raise rate_limited else Ok [] |}.

(** Height [h]; contract A returns its event of block 50 whenever the
    range includes that block, and contract B is rate limited. *)
Definition emits_at_50_limited_B (h : Z) : TickEnv :=
  {| block_number := Ok h;
     get_logs c _ from_block to_block :=
       if is_A c then
         if Z.leb from_block 50 && Z.leb 50 to_block
         then Ok [proof_at_50] else Ok []
       else Raise rate_limited |}.

(** Height [h]; contract A returns its event of block 50 whenever the
    range includes that block. *)
Definition emits_at_50 (h : Z) : TickEnv :=
  {| block_number := Ok h;
     get_logs c _ from_block to_block :=
       if is_A c && Z.leb from_block 50 && Z.leb 50 to_block
       then Ok [proof_at_50] else Ok [] |}.


(** A cache that stores what it is given and then fails to acknowledge
    the write: [set] raises after the entry has changed. *)
Record UnackedCache : Type := {
  kept : gmap string pyval
}.

#[export] Instance UnackedCache_CacheLike : CacheLike UnackedCache := {|
  cache_get c key := Ok (default PyNone (kept c !! key));
  cache_set c key val :=
    ({| kept := <[key := val]> (kept c) |},
     Raise (OtherException "TimeoutError"))
|}.

Definition unacknowledged : World UnackedCache unit :=
  {| cache := {| kept := ∅ |}; offchain_db := tt; trace := [] |}.

(** A cache on a full disk holding nothing. *)
Definition full_disk : World DictCache unit :=
  {| cache := {| entries := ∅; readable := true; writable := false |};
     offchain_db := tt;
     trace := [] |}.

(** ** Further vocabulary *)

(** The value of a decimal numeral read from the left with [acc] as the
    value of the digits read so far. *)
Fixpoint uint_val (acc : Z) (d : Decimal.uint) : Z :=
  match d with
  | Decimal.Nil => acc
  | Decimal.D0 d' => uint_val (10 * acc) d'
  | Decimal.D1 d' => uint_val (10 * acc + 1) d'
  | Decimal.D2 d' => uint_val (10 * acc + 2) d'
  | Decimal.D3 d' => uint_val (10 * acc + 3) d'
  | Decimal.D4 d' => uint_val (10 * acc + 4) d'
  | Decimal.D5 d' => uint_val (10 * acc + 5) d'
  | Decimal.D6 d' => uint_val (10 * acc + 6) d'
  | Decimal.D7 d' => uint_val (10 * acc + 7) d'
  | Decimal.D8 d' => uint_val (10 * acc + 8) d'
  | Decimal.D9 d' => uint_val (10 * acc + 9) d'
  end.

Definition no_space (c : ascii) : Prop := is_space c = false.

(** A world with a readable and writable dictionary cache holding
    [entries0]. *)
Definition world_with (entries0 : gmap string pyval)
    : World DictCache (list RawLogEvent) :=
  {| cache := {| entries := entries0; readable := true; writable := true |};
     offchain_db := [];
     trace := [] |}.

(** The provider answers every fetch with logs or with the pruned-range
    error. *)
Definition answers (env : TickEnv) : Prop :=
  forall c en f t,
    match get_logs env c en f t with
    | Ok _ => True
    | Raise e => is_pruned_error e = true
    end.

(** [rising c l]: starting above [c], every element of [l] is above its
    predecessor. *)
Fixpoint rising (c : Z) (l : list Z) : Prop :=
  match l with
  | [] => True
  | x :: l' => c < x /\ rising x l'
  end.

(** The logs of [logs] that a loop over them hands to the handler when it
    starts with the dedup set [seen]: the first log of each key that is not
    in [seen], in the order of [logs]. *)
Fixpoint fresh_logs (network : string) (seen : gset DedupeKey)
    (logs : list RawLogEvent) : list RawLogEvent :=
  match logs with
  | [] => []
  | ev :: rest =>
      if decide (dedupe_key_of network ev ∈ seen)
      then fresh_logs network seen rest
      else ev :: fresh_logs network ({[dedupe_key_of network ev]} ∪ seen) rest
  end.

(** The off-chain store after the handler was called on [evs] in order,
    whether the calls returned or raised. *)
Definition handler_effects {D : Type}
    (ev_func : RawLogEvent -> D -> D * result unit)
    (evs : list RawLogEvent) (db : D) : D :=
  fold_left (fun db0 ev => fst (ev_func ev db0)) evs db.

(** The keys of a list of events, as a set. *)
Definition keys_of (network : string) (evs : list RawLogEvent)
    : gset DedupeKey :=
  list_to_set (dedupe_key_of network <$> evs).

(** Fetches are for the event ["PostProof"] of a registry in [names]. *)
Definition fetch_in (names : list string) (a : Action) : Prop :=
  match a with
  | AGetLogs rn en _ _ => rn ∈ names /\ en = "PostProof"
  | _ => True
  end.

(** The actions of a pass before its final sleep or its final error
    line. *)
Definition pass_action (a : Action) : Prop :=
  match a with
  | ASleep _ => False
  | APrint (MsgListenerError _ _) => False
  | _ => True
  end.

(** [touched st new st']: while the actions [new] were appended to the
    trace, the dedup set grew by exactly the keys of the events handed to
    the handler, and the off-chain store changed by exactly those handler
    calls, in order. *)
Definition touched {C D : Type} (network : string)
    (ev_func : RawLogEvent -> D -> D * result unit)
    (st : State C D) (new : list Action) (st' : State C D) : Prop :=
  trace (world st') = trace (world st) ++ new
  /\ seen_logs st' = keys_of network (handled new) ∪ seen_logs st
  /\ offchain_db (world st')
     = handler_effects ev_func (handled new) (offchain_db (world st)).

(** The registries fetched, in order. *)
Definition fetched_names (tr : list Action) : list string :=
  omap (fun a => match a with AGetLogs rn _ _ _ => Some rn | _ => None end) tr.

(** * Lemmas *)

(** ** Reading a trace *)

Lemma last_from_app c l1 l2 :
  last_from c (l1 ++ l2) = last_from (last_from c l1) l2.
Proof. revert c; induction l1 as [|x l1 IH]; intros c; simpl; auto. Qed.

Lemma chain_app c l1 l2 :
  chain c (l1 ++ l2) <-> chain c l1 /\ chain (last_from c l1) l2.
Proof.
  revert c; induction l1 as [|x l1 IH]; intros c; simpl.
  - tauto.
  - rewrite IH. tauto.
Qed.

Lemma chain_le c l : chain c l -> c <= last_from c l.
Proof.
  revert c; induction l as [|x l IH]; intros c; simpl.
  - lia.
  - intros [Hc Hl]. specialize (IH _ Hl). lia.
Qed.

Lemma handled_app t1 t2 : handled (t1 ++ t2) = handled t1 ++ handled t2.
Proof. apply omap_app. Qed.

Lemma assigned_app t1 t2 : assigned (t1 ++ t2) = assigned t1 ++ assigned t2.
Proof. apply omap_app. Qed.

Lemma cache_writes_app t1 t2 :
  cache_writes (t1 ++ t2) = cache_writes t1 ++ cache_writes t2.
Proof. apply omap_app. Qed.

Lemma elem_of_handled ev t : ev ∈ handled t <-> AHandler ev ∈ t.
Proof.
  unfold handled. rewrite list_elem_of_omap. split.
  - intros (a & Ha & Hev). destruct a; inversion Hev; subst; exact Ha.
  - intros Ha. exists (AHandler ev). split; [exact Ha | reflexivity].
Qed.

Lemma handled_neutral t : Forall neutral t -> handled t = [].
Proof.
  induction 1 as [|a t Ha _ IH]; [reflexivity|].
  destruct a; simpl in Ha; try contradiction; exact IH.
Qed.

Lemma assigned_neutral t : Forall neutral t -> assigned t = [].
Proof.
  induction 1 as [|a t Ha _ IH]; [reflexivity|].
  destruct a; simpl in Ha; try contradiction; exact IH.
Qed.

Lemma get_logs_neutral t rn en f b :
  Forall neutral t -> AGetLogs rn en f b ∉ t.
Proof.
  intros Hn Hin. rewrite Forall_forall in Hn.
  apply (Hn _ Hin).
Qed.

(** ** What every piece of the loop does to the state *)

Section Steps.
Context {C D : Type} {cache_ops : CacheLike C}.
Variable network : string.
Variable ev_func : RawLogEvent -> D -> D * result unit.

Lemma steps_refl (st : State C D) : steps network st [] st.
Proof.
  unfold steps; simpl. rewrite app_nil_r.
  split; [reflexivity|]. split; [reflexivity|]. split; [exact I|].
  split; [reflexivity|]. split; [|split; [apply NoDup_nil_2|split]].
  - intros rn en f t Hin. apply elem_of_nil in Hin. contradiction.
  - intros ev Hin. apply elem_of_nil in Hin. contradiction.
  - reflexivity.
Qed.

Lemma steps_le (st : State C D) new st' :
  steps network st new st' -> last_block st <= last_block st'.
Proof.
  intros (_ & _ & Hc & Hl & _). rewrite Hl. apply chain_le, Hc.
Qed.

Lemma steps_trans (st : State C D) n1 st1 n2 st2 :
  steps network st n1 st1 -> steps network st1 n2 st2 ->
  steps network st (n1 ++ n2) st2.
Proof.
  intros H1 H2. pose proof (steps_le _ _ _ H1) as Hle.
  destruct H1 as (T1 & S1 & C1 & L1 & F1 & N1 & K1 & W1).
  destruct H2 as (T2 & S2 & C2 & L2 & F2 & N2 & K2 & W2).
  unfold steps.
  rewrite assigned_app, handled_app, fmap_app, cache_writes_app.
  split; [rewrite T2, T1, app_assoc; reflexivity|].
  split; [etransitivity; eassumption|].
  split; [apply chain_app; rewrite <- L1; auto|].
  split; [rewrite last_from_app, <- L1; exact L2|].
  split.
  { intros rn en f t Hin. apply elem_of_app in Hin as [Hin|Hin].
    - eapply F1, Hin.
    - specialize (F2 _ _ _ _ Hin). lia. }
  split.
  { apply NoDup_app. split; [exact N1|]. split; [|exact N2].
    intros k Hk1 Hk2.
    apply list_elem_of_fmap in Hk1 as (e1 & -> & He1).
    apply list_elem_of_fmap in Hk2 as (e2 & Heq & He2).
    destruct (K1 _ He1) as [_ Hin]. destruct (K2 _ He2) as [Hnin _].
    rewrite Heq in Hin. contradiction. }
  split.
  { intros ev Hin. apply elem_of_app in Hin as [Hin|Hin].
    - destruct (K1 _ Hin) as [Ha Hb]. split; [exact Ha | apply S2, Hb].
    - destruct (K2 _ Hin) as [Ha Hb]. split; [|exact Hb].
      intros Hc. apply Ha, S1, Hc. }
  intros Hw. apply app_eq_nil in Hw as [Hw1 Hw2].
  rewrite (W2 Hw2). apply W1, Hw1.
Qed.

(** A change of the world that appends neutral actions only. *)
Lemma steps_neutral (st : State C D) new w' :
  trace w' = trace (world st) ++ new -> Forall neutral new ->
  (cache_writes new = [] -> cache w' = cache (world st)) ->
  steps network st new {| seen_logs := seen_logs st; last_block := last_block st;
                  world := w' |}.
Proof.
  intros Ht Hn Hw. unfold steps; simpl.
  rewrite (assigned_neutral _ Hn), (handled_neutral _ Hn). simpl.
  split; [exact Ht|]. split; [reflexivity|]. split; [exact I|].
  split; [reflexivity|]. split; [|split; [apply NoDup_nil_2|split]].
  - intros rn en f t Hin. exfalso. eapply get_logs_neutral; eauto.
  - intros ev Hin. apply elem_of_nil in Hin. contradiction.
  - exact Hw.
Qed.

Lemma add_trace_steps (st : State C D) new :
  Forall neutral new -> steps network st new (add_trace st new).
Proof. intros Hn. apply steps_neutral; [reflexivity | exact Hn | reflexivity]. Qed.

Lemma hoare_skip {R} (P : State C D -> Prop) A (m : Py (State C D) R) :
  (forall st, fst (m st) = st) -> hoare network P A m.
Proof.
  intros Hm st HP. exists []. rewrite Hm.
  split; [apply steps_refl|]. split; [exact HP | constructor].
Qed.

Lemma hoare_pure {R} (P : State C D -> Prop) A (r : result R) :
  hoare network P A (of_result r).
Proof. apply hoare_skip. reflexivity. Qed.

Lemma hoare_ret {R} (P : State C D -> Prop) A (a : R) :
  hoare network P A (ret a).
Proof. apply hoare_skip. reflexivity. Qed.

Lemma hoare_raise {R} (P : State C D -> Prop) A e :
  hoare network P A (raise e : Py (State C D) R).
Proof. apply hoare_skip. reflexivity. Qed.

Lemma hoare_get (P : State C D -> Prop) A :
  hoare network P A (get : Py (State C D) (State C D)).
Proof. apply hoare_skip. reflexivity. Qed.

Lemma hoare_bind {R1 R2} (P : State C D -> Prop) A (m : Py (State C D) R1)
    (k : R1 -> Py (State C D) R2) :
  hoare network P A m -> (forall a, hoare network P A (k a)) ->
  hoare network P A (bind m k).
Proof.
  intros Hm Hk st HP. unfold bind.
  destruct (Hm st HP) as (n1 & Hs1 & HP1 & HA1).
  destruct (m st) as [st1 [a|e]]; simpl in *.
  - destruct (Hk a st1 HP1) as (n2 & Hs2 & HP2 & HA2).
    exists (n1 ++ n2). split; [eapply steps_trans; eauto|].
    split; [exact HP2 | apply Forall_app; auto].
  - exists n1. auto.
Qed.

Lemma hoare_try {R} (P : State C D -> Prop) A (m : Py (State C D) R)
    (h : exn -> Py (State C D) R) :
  hoare network P A m -> (forall e, hoare network P A (h e)) ->
  hoare network P A (try_except m h).
Proof.
  intros Hm Hh st HP. unfold try_except.
  destruct (Hm st HP) as (n1 & Hs1 & HP1 & HA1).
  destruct (m st) as [st1 [a|e]]; simpl in *.
  - exists n1. auto.
  - destruct (Hh e st1 HP1) as (n2 & Hs2 & HP2 & HA2).
    exists (n1 ++ n2). split; [eapply steps_trans; eauto|].
    split; [exact HP2 | apply Forall_app; auto].
Qed.

Lemma hoare_for_each {X} (P : State C D -> Prop) A (l : list X)
    (body : X -> Py (State C D) unit) :
  (forall x, hoare network P A (body x)) ->
  hoare network P A (for_each l body).
Proof.
  intros Hb. induction l as [|x l IH]; simpl.
  - apply hoare_ret.
  - apply hoare_bind; [apply Hb | intros _; exact IH].
Qed.

(** Printing and sleeping from inside the loop. *)
Lemma hoare_lift_emit (Q : Z -> Prop) (A : Action -> Prop) a :
  neutral a -> A a -> cache_writes [a] = [] ->
  hoare network (fun st : State C D => Q (last_block st)) A (lift (emit a)).
Proof.
  intros Hn Ha Hw st HQ. exists [a].
  split; [|split; [exact HQ | repeat constructor; exact Ha]].
  apply (add_trace_steps st [a]). repeat constructor; exact Hn.
Qed.

Lemma steps_set_last_block (st : State C D) n :
  last_block st <= n ->
  steps network st [ASetLastBlock n] (fst (set_last_block n st))
  /\ last_block (fst (set_last_block n st)) = n.
Proof.
  intros Hle. split; [|reflexivity]. unfold steps; simpl.
  split; [reflexivity|]. split; [reflexivity|]. split; [auto|].
  split; [reflexivity|]. split; [|split; [apply NoDup_nil_2|split]].
  - intros rn en f t Hin. apply list_elem_of_singleton in Hin. discriminate.
  - intros ev Hin. apply elem_of_nil in Hin. contradiction.
  - reflexivity.
Qed.

Lemma hoare_set_last_block (A : Action -> Prop) n :
  A (ASetLastBlock n) ->
  hoare network (fun st : State C D => last_block st <= n) A (set_last_block n).
Proof.
  intros Ha st Hle. exists [ASetLastBlock n].
  destruct (steps_set_last_block st n Hle) as [Hs Hl].
  split; [exact Hs|]. split; [rewrite Hl; lia | repeat constructor; exact Ha].
Qed.

Lemma hoare_get_logs_call (Q : Z -> Prop) (A : Action -> Prop)
    env rn c en cur :
  (forall f, A (AGetLogs rn en f cur)) ->
  hoare network (fun st : State C D => Q (last_block st)) A
    (get_logs_call env rn c en cur).
Proof.
  intros Ha st HQ. exists [AGetLogs rn en (last_block st + 1) cur].
  unfold steps; simpl.
  split; [|split; [exact HQ | repeat constructor; apply Ha]].
  split; [reflexivity|]. split; [reflexivity|]. split; [exact I|].
  split; [reflexivity|]. split; [|split; [apply NoDup_nil_2|split]].
  - intros rn' en' f t Hin. apply list_elem_of_singleton in Hin.
    inversion Hin; subst. lia.
  - intros ev Hin. apply elem_of_nil in Hin. contradiction.
  - reflexivity.
Qed.

Lemma hoare_dispatch (Q : Z -> Prop) (A : Action -> Prop) handler ev :
  A (AHandler ev) ->
  hoare network (fun st : State C D => Q (last_block st)) A
    (dispatch network handler ev).
Proof.
  intros Ha st HQ. unfold dispatch, bind, get; simpl.
  destruct (decide (dedupe_key_of network ev ∈ seen_logs st)) as [Hin|Hnin].
  - exists []. split; [apply steps_refl|]. split; [exact HQ | constructor].
  - unfold call_handler; simpl.
    destruct (handler ev (offchain_db (world st))) as [db' r]; simpl.
    exists [AHandler ev].
    split; [|split; [exact HQ | repeat constructor; exact Ha]].
    unfold steps; simpl.
    split; [reflexivity|]. split; [apply union_subseteq_r|].
    split; [exact I|]. split; [reflexivity|].
    split; [|split; [apply NoDup_singleton|split]].
    + intros rn en f t Hin. apply list_elem_of_singleton in Hin. discriminate.
    + intros ev' Hin. apply list_elem_of_singleton in Hin. subst ev'.
      split; [exact Hnin|]. apply elem_of_union_l, elem_of_singleton.
      reflexivity.
    + reflexivity.
Qed.

Lemma cache_writes_sweep new : Forall sweep_action new -> cache_writes new = [].
Proof.
  induction 1 as [|a t Ha _ IH]; [reflexivity|].
  destruct a; simpl in Ha; try contradiction; exact IH.
Qed.

Lemma hoare_dispatch_all (Q : Z -> Prop) handler logs :
  hoare network (fun st : State C D => Q (last_block st))
    (fun a => match a with AHandler _ => True | _ => False end)
    (for_each logs (dispatch network handler)).
Proof. apply hoare_for_each. intros ev. apply hoare_dispatch. exact I. Qed.

Lemma hoare_weaken {R} (P : State C D -> Prop) (A B : Action -> Prop) (m : Py (State C D) R) :
  (forall a, A a -> B a) -> hoare network P A m -> hoare network P B m.
Proof.
  intros HAB Hm st HP. destruct (Hm st HP) as (new & Hs & HP' & HA).
  exists new. split; [exact Hs|]. split; [exact HP'|].
  eapply Forall_impl; eauto.
Qed.

Lemma hoare_on_get_logs_error cur e :
  hoare network (fun st : State C D => last_block st <= cur) sweep_action
    (on_get_logs_error network cur e).
Proof.
  unfold on_get_logs_error.
  destruct e as [[|err rest]| | | |]; try apply hoare_raise.
  destruct (is_pruned_code err); [|apply hoare_raise].
  apply hoare_bind.
  - apply (hoare_lift_emit (fun lb => lb <= cur)); [exact I | exact I | reflexivity].
  - intros _. apply hoare_bind; [apply hoare_set_last_block; exact I|].
    intros _. apply hoare_ret.
Qed.

Lemma hoare_poll_event env cur rn c sub :
  hoare network (fun st : State C D => last_block st <= cur) sweep_action
    (poll_event network env cur rn c sub).
Proof.
  unfold poll_event. destruct sub as [en handler].
  apply hoare_bind.
  - apply hoare_try.
    + apply hoare_bind.
      * apply (hoare_get_logs_call (fun lb => lb <= cur)). intros f. exact I.
      * intros logs. apply hoare_ret.
    + intros e. apply hoare_on_get_logs_error.
  - intros [logs|]; [|apply hoare_ret].
    eapply hoare_weaken; [|apply (hoare_dispatch_all (fun lb => lb <= cur))].
    intros [] Ha; try contradiction; exact I.
Qed.

Lemma hoare_poll_contract env cur rc :
  hoare network (fun st : State C D => last_block st <= cur) sweep_action
    (poll_contract network ev_func env cur rc).
Proof.
  destruct rc as [rn c].
  unfold poll_contract. apply hoare_for_each. intros sub.
  apply hoare_poll_event.
Qed.

Lemma hoare_sweep env cur contracts :
  hoare network (fun st : State C D => last_block st <= cur) sweep_action
    (sweep network ev_func env cur contracts).
Proof.
  unfold sweep. apply hoare_for_each. intros rc. apply hoare_poll_contract.
Qed.
End Steps.

(** ** One pass of the loop, case by case *)

Section TickCases.
Context {C D : Type} {cache_ops : CacheLike C}.
Variable network : string.
Variable ev_func : RawLogEvent -> D -> D * result unit.

Lemma save_never_raises key n (w : World C D) :
  snd (save_last_block key n w) = Ok tt.
Proof.
  unfold save_last_block, try_except, cache_set_call.
  destruct (cache_set (cache w) key (PyStr (py_str n))) as [c' [[]|e]];
    reflexivity.
Qed.

(** What [save_last_block] appends to the trace. *)
Lemma save_trace key n (w : World C D) :
  exists new,
    trace (fst (save_last_block key n w)) = trace w ++ new
    /\ Forall neutral new
    /\ offchain_db (fst (save_last_block key n w)) = offchain_db w
    /\ cache_writes new = [(key, PyStr (py_str n))].
Proof.
  unfold save_last_block, try_except, cache_set_call.
  destruct (cache_set (cache w) key (PyStr (py_str n))) as [c' [[]|e]]; simpl.
  - exists [ACacheSet key (PyStr (py_str n))]. repeat split.
    repeat constructor.
  - exists [ACacheSet key (PyStr (py_str n)); APrint (MsgSaveFailed key e)].
    rewrite <- app_assoc. repeat split. repeat constructor.
Qed.

Lemma backoff_eq e (st : State C D) :
  backoff network e st
  = (add_trace st [APrint (MsgListenerError network e); ASleep 5], Ok tt).
Proof.
  unfold backoff, add_trace, bind, lift, print, sleep, emit, modify; simpl.
  rewrite <- app_assoc. reflexivity.
Qed.

Lemma sleep_eq n (st : State C D) :
  lift (sleep n) st = (add_trace st [ASleep n], Ok tt).
Proof. reflexivity. Qed.

(** [commit] never raises; it assigns the cursor and then appends neutral
    actions. *)
Lemma commit_eq h (st : State C D) :
  exists w' new,
    commit network h st
    = ({| seen_logs := seen_logs st; last_block := h; world := w' |}, Ok tt)
    /\ trace w' = trace (world st) ++ ASetLastBlock h :: new
    /\ Forall neutral new
    /\ offchain_db w' = offchain_db (world st).
Proof.
  unfold commit, bind, set_last_block, get, lift, emit, modify; simpl.
  match goal with
  | |- context [save_last_block ?k ?n ?w] =>
      pose proof (save_never_raises k n w) as Hs;
      destruct (save_trace k n w) as (new & Ht & Hn & Hdb & _);
      destruct (save_last_block k n w) as [w' r]
  end.
  simpl in *. subst r. exists w', new.
  split; [reflexivity|]. rewrite Ht, <- app_assoc. auto.
Qed.

Lemma commit_steps h (st : State C D) :
  last_block st <= h ->
  exists new, steps network st new (fst (commit network h st))
              /\ last_block (fst (commit network h st)) = h.
Proof.
  intros Hle. destruct (commit_eq h st) as (w' & new & Heq & Ht & Hn & _).
  rewrite Heq. simpl. exists ([ASetLastBlock h] ++ new). split; [|reflexivity].
  eapply steps_trans; [apply (steps_set_last_block network st h Hle)|].
  apply (steps_neutral network (fst (set_last_block h st)) new w').
  - simpl. rewrite Ht, <- app_assoc. reflexivity.
  - exact Hn.
  - intros Hw. exfalso.
    unfold commit, bind, set_last_block, get, lift, emit, modify in Heq;
      simpl in Heq.
    match type of Heq with
    | context [save_last_block ?k ?n ?w] =>
        destruct (save_trace k n w) as (new' & Ht' & _ & _ & Hw');
        destruct (save_last_block k n w) as [w'' r]
    end.
    simpl in *. inversion Heq; subst w''.
    rewrite Ht', <- app_assoc in Ht. apply app_inv_head in Ht.
    simpl in Ht. inversion Ht; subst new'. rewrite Hw in Hw'. discriminate.
Qed.

Lemma tick_cases env contracts st :
  tick network ev_func env contracts st
  = match block_number env with
    | Raise e => backoff network e st
    | Ok h =>
        if h >? last_block st then
          match sweep network ev_func env h contracts st with
          | (st1, Raise e) => backoff network e st1
          | (st1, Ok _) => lift (sleep 3) (fst (commit network h st1))
          end
        else lift (sleep 3) st
    end.
Proof.
  unfold tick, tick_body, try_except, bind, of_result, get.
  fold (@backoff C D network).
  destruct (block_number env) as [h|e]; [|reflexivity].
  destruct (h >? last_block st); [|reflexivity].
  destruct (sweep network ev_func env h contracts st) as [st1 [[]|e]];
    [|reflexivity].
  destruct (commit_eq h st1) as (w' & new & Heq & _).
  unfold commit, bind, get in *.
  destruct (set_last_block h st1) as [st2 [[]|e2]]; simpl in *;
    [|discriminate].
  rewrite Heq. reflexivity.
Qed.

(** A pass of the loop never raises, and makes [steps]. *)
Lemma tick_steps env contracts st :
  snd (tick network ev_func env contracts st) = Ok tt
  /\ exists new, steps network st new (fst (tick network ev_func env contracts st)).
Proof.
  rewrite tick_cases.
  destruct (block_number env) as [h|e].
  - destruct (h >? last_block st) eqn:Hg.
    + apply Z.gtb_lt in Hg.
      destruct (hoare_sweep network ev_func env h contracts st)
        as (n1 & Hs1 & Hle1 & _); [simpl; lia|].
      destruct (sweep network ev_func env h contracts st) as [st1 [[]|e]];
        cbn [fst snd] in *.
      * destruct (commit_steps h st1 Hle1) as (n2 & Hs2 & _).
        rewrite sleep_eq. split; [reflexivity|].
        exists (n1 ++ n2 ++ [ASleep 3]); simpl.
        eapply steps_trans; [exact Hs1|].
        eapply steps_trans; [exact Hs2|].
        apply add_trace_steps. repeat constructor.
      * rewrite backoff_eq. split; [reflexivity|].
        eexists. eapply steps_trans; [exact Hs1|].
        apply add_trace_steps. repeat constructor.
    + rewrite sleep_eq. split; [reflexivity|].
      eexists. apply add_trace_steps. repeat constructor.
  - rewrite backoff_eq. split; [reflexivity|].
    eexists. apply add_trace_steps. repeat constructor.
Qed.

(** Any number of passes never raises, and makes [steps]. *)
Lemma run_steps envs contracts st :
  snd (run network ev_func envs contracts st) = Ok tt
  /\ exists new, steps network st new (fst (run network ev_func envs contracts st)).
Proof.
  revert st. induction envs as [|env envs IH]; intros st.
  - split; [reflexivity|]. exists []. apply steps_refl.
  - unfold run; simpl. unfold bind.
    destruct (tick_steps env contracts st) as (Hr & n1 & Hs1).
    destruct (tick network ev_func env contracts st) as [st1 r1];
      simpl in *. subst r1.
    destruct (IH st1) as (Hr2 & n2 & Hs2).
    split; [exact Hr2|].
    exists (n1 ++ n2). eapply steps_trans; eauto.
Qed.

Lemma run_cons env envs contracts st :
  run network ev_func (env :: envs) contracts st
  = run network ev_func envs contracts
      (fst (tick network ev_func env contracts st)).
Proof.
  unfold run; simpl. unfold bind.
  destruct (tick_steps env contracts st) as (Hr & _).
  destruct (tick network ev_func env contracts st) as [st1 r1];
    simpl in *. subst r1. reflexivity.
Qed.

Lemma run_app envs1 envs2 contracts st :
  fst (run network ev_func (envs1 ++ envs2) contracts st)
  = fst (run network ev_func envs2 contracts
           (fst (run network ev_func envs1 contracts st))).
Proof.
  revert st. induction envs1 as [|env envs1 IH]; intros st; [reflexivity|].
  simpl app. rewrite !run_cons. apply IH.
Qed.
End TickCases.

(** ** Reaching one contract inside a pass *)

Section Reach.
Context {C D : Type} {cache_ops : CacheLike C}.
Variable network : string.
Variable ev_func : RawLogEvent -> D -> D * result unit.

Lemma for_each_app {S X} (l1 l2 : list X) (body : X -> Py S unit) s :
  for_each (l1 ++ l2) body s
  = match for_each l1 body s with
    | (s1, Ok _) => for_each l2 body s1
    | (s1, Raise e) => (s1, Raise e)
    end.
Proof.
  revert s. induction l1 as [|x l1 IH]; intros s; [reflexivity|].
  simpl. unfold bind. destruct (body x s) as [s' [[]|e]]; [apply IH | reflexivity].
Qed.

Lemma sweep_app env h pre post (st : State C D) :
  sweep network ev_func env h (pre ++ post) st
  = match sweep network ev_func env h pre st with
    | (st1, Ok _) => sweep network ev_func env h post st1
    | (st1, Raise e) => (st1, Raise e)
    end.
Proof. apply for_each_app. Qed.

Lemma sweep_cons env h rc post (st : State C D) :
  sweep network ev_func env h (rc :: post) st
  = match poll_contract network ev_func env h rc st with
    | (st1, Ok _) => sweep network ev_func env h post st1
    | (st1, Raise e) => (st1, Raise e)
    end.
Proof. reflexivity. Qed.

Lemma poll_contract_eq env h rn c (st : State C D) :
  poll_contract network ev_func env h (rn, c) st
  = let st_f := add_trace st [AGetLogs rn "PostProof" (last_block st + 1) h] in
    match get_logs env c "PostProof" (last_block st + 1) h with
    | Ok logs => for_each logs (dispatch network ev_func) st_f
    | Raise e =>
        if is_pruned_error e then (skipped_to network h rn st, Ok tt)
        else (st_f, Raise (raised_by e))
    end.
Proof.
  unfold poll_contract, subscriptions. cbn [for_each].
  unfold poll_event, bind, try_except, get_logs_call, bind, get, lift, emit,
    modify, of_result, ret, add_trace.
  cbn [fst snd last_block world seen_logs trace cache offchain_db].
  destruct (get_logs env c "PostProof" (last_block st + 1) h) as [logs|e].
  - match goal with |- context [for_each logs ?b ?s] =>
      destruct (for_each logs b s) as [s' [[]|e]] end; reflexivity.
  - unfold on_get_logs_error, is_pruned_error, raised_by.
    destruct e as [[|err rest]| | | |]; try reflexivity.
    destruct (is_pruned_code err); [|reflexivity].
    unfold skipped_to, set_last_block, bind, lift, print, emit, modify, ret;
      simpl.
    rewrite <- !app_assoc. reflexivity.
Qed.

(** A pass that has reached the contract [rc] after sweeping [pre]. *)
Lemma tick_reach env h pre rc post (st st1 : State C D) :
  block_number env = Ok h ->
  last_block st < h ->
  sweep network ev_func env h pre st = (st1, Ok tt) ->
  tick network ev_func env (pre ++ rc :: post) st
  = match poll_contract network ev_func env h rc st1 with
    | (st2, Raise e) => backoff network e st2
    | (st2, Ok _) =>
        match sweep network ev_func env h post st2 with
        | (st3, Raise e) => backoff network e st3
        | (st3, Ok _) => lift (sleep 3) (fst (commit network h st3))
        end
    end.
Proof.
  intros Hh Hlt Hpre. rewrite tick_cases, Hh.
  assert (Hg : (h >? last_block st) = true) by (apply Z.gtb_lt; lia).
  rewrite Hg, sweep_app, Hpre, sweep_cons.
  destruct (poll_contract network ev_func env h rc st1) as [st2 [[]|e]];
    reflexivity.
Qed.

(** Polling a contract starts with the fetch from the cursor plus 1. *)
Lemma poll_contract_starts env h rn c (st : State C D) :
  exists more,
    trace (world (fst (poll_contract network ev_func env h (rn, c) st)))
    = trace (world st)
      ++ AGetLogs rn "PostProof" (last_block st + 1) h :: more.
Proof.
  rewrite poll_contract_eq. cbn zeta.
  destruct (get_logs env c "PostProof" (last_block st + 1) h) as [logs|e].
  - destruct (hoare_dispatch_all network (fun _ => True) ev_func logs
                (add_trace st [AGetLogs rn "PostProof" (last_block st + 1) h]) I)
      as (new & (Ht & _) & _).
    exists new. rewrite Ht. simpl. rewrite <- app_assoc. reflexivity.
  - destruct (is_pruned_error e); eexists; simpl; reflexivity.
Qed.

Lemma sweep_starts env h rn c post (st : State C D) :
  last_block st <= h ->
  exists more,
    trace (world (fst (sweep network ev_func env h ((rn, c) :: post) st)))
    = trace (world st)
      ++ AGetLogs rn "PostProof" (last_block st + 1) h :: more.
Proof.
  intros Hle. rewrite sweep_cons.
  destruct (poll_contract_starts env h rn c st) as (m1 & Ht1).
  destruct (hoare_poll_contract network ev_func env h (rn, c) st Hle)
    as (n1 & _ & Hle1 & _).
  destruct (poll_contract network ev_func env h (rn, c) st) as [st1 [[]|e]];
    cbn [fst snd] in *.
  - destruct (hoare_sweep network ev_func env h post st1 Hle1)
      as (n2 & (Ht2 & _) & _).
    exists (m1 ++ n2). rewrite Ht2, Ht1, <- app_assoc. reflexivity.
  - exists m1. exact Ht1.
Qed.

(** Whatever follows the state [st2] inside a pass and in later passes
    makes [steps] from [st2]; [n1] is what the rest of the sweep adds. *)
Lemma rest_of_run_steps env h post envs contracts (st2 : State C D) :
  last_block st2 <= h ->
  exists n1 n2,
    trace (world (fst (sweep network ev_func env h post st2)))
    = trace (world st2) ++ n1
    /\ steps network st2 (n1 ++ n2)
      (fst (run network ev_func envs contracts
              (fst (match sweep network ev_func env h post st2 with
                    | (st3, Raise e) => backoff network e st3
                    | (st3, Ok _) => lift (sleep 3) (fst (commit network h st3))
                    end)))).
Proof.
  intros Hle.
  destruct (hoare_sweep network ev_func env h post st2 Hle)
    as (n1 & Hs1 & Hle1 & _).
  exists n1.
  destruct (sweep network ev_func env h post st2) as [st3 [[]|e]];
    cbn [fst snd] in *.
  - destruct (commit_steps network h st3 Hle1) as (n2 & Hs2 & _).
    rewrite sleep_eq. cbn [fst].
    match goal with |- context [run _ _ envs contracts ?s] =>
      destruct (run_steps network ev_func envs contracts s) as (_ & n3 & Hs3) end.
    eexists. split; [apply Hs1|]. eapply steps_trans; [exact Hs1|].
    eapply steps_trans; [exact Hs2|].
    eapply steps_trans; [|exact Hs3].
    apply (add_trace_steps network _ [ASleep 3]). repeat constructor.
  - rewrite backoff_eq. cbn [fst].
    match goal with |- context [run _ _ envs contracts ?s] =>
      destruct (run_steps network ev_func envs contracts s) as (_ & n3 & Hs3) end.
    eexists. split; [apply Hs1|]. eapply steps_trans; [exact Hs1|].
    eapply steps_trans; [|exact Hs3].
    apply add_trace_steps. repeat constructor.
Qed.

(** A pass over new blocks starts with the fetch, for the first contract,
    from the cursor plus 1. *)
Lemma tick_starts env h rn c tl (st : State C D) :
  block_number env = Ok h ->
  last_block st < h ->
  exists more,
    trace (world (fst (tick network ev_func env ((rn, c) :: tl) st)))
    = trace (world st)
      ++ AGetLogs rn "PostProof" (last_block st + 1) h :: more.
Proof.
  intros Hh Hlt. rewrite tick_cases, Hh.
  assert (Hg : (h >? last_block st) = true) by (apply Z.gtb_lt; lia).
  rewrite Hg.
  destruct (sweep_starts env h rn c tl st) as (m1 & Ht1); [lia|].
  destruct (rest_of_run_steps env h ((rn, c) :: tl) [] [] st)
    as (n1 & n2 & Ht & Hs); [lia|].
  destruct Hs as (Hs & _). unfold run in Hs. cbn [for_each ret fst] in Hs.
  rewrite Hs. rewrite Ht1 in Ht. apply app_inv_head in Ht. subst n1.
  eexists. simpl. reflexivity.
Qed.

Lemma assigned_handlers new :
  Forall (fun a => match a with AHandler _ => True | _ => False end) new ->
  assigned new = [].
Proof.
  induction 1 as [|a t Ha _ IH]; [reflexivity|].
  destruct a; simpl in Ha; try contradiction; exact IH.
Qed.

(** A sweep in which no fetch is answered with the pruned-range error
    assigns nothing, and when it returns it has fetched, for every
    contract, the range from the cursor plus 1 to [h]. *)
Lemma sweep_unpruned env h contracts (st : State C D) :
  (forall rc, rc ∈ contracts ->
     fetch_pruned (get_logs env rc.2 "PostProof" (last_block st + 1) h) = false) ->
  exists new,
    steps network st new (fst (sweep network ev_func env h contracts st))
    /\ assigned new = []
    /\ cache_writes new = []
    /\ (snd (sweep network ev_func env h contracts st) = Ok tt ->
        forall rn c, (rn, c) ∈ contracts ->
          AGetLogs rn "PostProof" (last_block st + 1) h ∈ new).
Proof.
  revert st. induction contracts as [|[rn c] cs IH]; intros st Hnp.
  - exists []. split; [apply steps_refl|]. split; [reflexivity|].
    split; [reflexivity|].
    intros _ rn c Hin. apply elem_of_nil in Hin. contradiction.
  - rewrite sweep_cons, poll_contract_eq. cbn zeta.
    pose proof (Hnp (rn, c) (proj2 (elem_of_cons _ _ _) (or_introl eq_refl))) as Hc. simpl in Hc.
    set (G := AGetLogs rn "PostProof" (last_block st + 1) h).
    assert (HG : steps network st [G] (add_trace st [G])).
    { destruct (hoare_get_logs_call network (fun _ => True) (fun _ => True)
                  env rn c "PostProof" h (fun _ => I) st I)
        as (n & Hs & _ & _).
      destruct Hs as (Ht & Hrest). simpl in Ht.
      apply app_inv_head in Ht. subst n. split; [reflexivity | exact Hrest]. }
    destruct (get_logs env c "PostProof" (last_block st + 1) h) as [logs|e].
    + destruct (hoare_dispatch_all network (fun _ => True) ev_func logs
                  (add_trace st [G]) I) as (n1 & Hs1 & _ & HA1).
      pose proof (assigned_handlers _ HA1) as Has1.
      assert (Hw1 : cache_writes n1 = []).
      { clear -HA1. induction HA1 as [|a t Ha _ IHa]; [reflexivity|].
        destruct a; simpl in Ha; try contradiction; exact IHa. }
      assert (Hlb : last_block (fst (for_each logs (dispatch network ev_func)
                                       (add_trace st [G]))) = last_block st).
      { destruct Hs1 as (_ & _ & _ & Hl & _). rewrite Hl, Has1. reflexivity. }
      destruct (for_each logs (dispatch network ev_func) (add_trace st [G]))
        as [st1 [[]|e]]; cbn [fst snd] in *.
      * destruct (IH st1) as (n2 & Hs2 & Has2 & Hw2 & Hall).
        { intros rc Hin. rewrite Hlb. apply Hnp. apply elem_of_cons. right. exact Hin. }
        exists ([G] ++ n1 ++ n2).
        split; [eapply steps_trans; [exact HG|];
                eapply steps_trans; [exact Hs1 | exact Hs2]|].
        split; [rewrite !assigned_app, Has1, Has2; reflexivity|].
        split; [rewrite !cache_writes_app, Hw1, Hw2; reflexivity|].
        intros Hok rn' c' Hin. apply elem_of_cons in Hin as [Heq|Hin].
        -- inversion Heq; subst. apply elem_of_cons. left. reflexivity.
        -- apply elem_of_cons. right. apply elem_of_app. right.
           rewrite <- Hlb. eapply Hall; eauto.
      * exists ([G] ++ n1).
        split; [eapply steps_trans; [exact HG | exact Hs1]|].
        split; [rewrite assigned_app, Has1; reflexivity|].
        split; [rewrite cache_writes_app, Hw1; reflexivity|].
        intros Hok. discriminate.
    + simpl in Hc. rewrite Hc. exists [G].
      split; [exact HG|]. split; [reflexivity|]. split; [reflexivity|].
      intros Hok. discriminate.
Qed.
End Reach.

(** ** Fetches made before the cursor moves *)

Lemma pruned_skip_app_r network tr tr' rn f t :
  pruned_skip network tr rn f t -> pruned_skip network (tr ++ tr') rn f t.
Proof.
  intros (l1 & l2 & ->). exists l1, (l2 ++ tr').
  rewrite <- app_assoc. reflexivity.
Qed.

Lemma pruned_skip_app_l network tr tr' rn f t :
  pruned_skip network tr' rn f t -> pruned_skip network (tr ++ tr') rn f t.
Proof.
  intros (l1 & l2 & ->). exists (tr ++ l1), l2.
  rewrite <- app_assoc. reflexivity.
Qed.

Lemma pruned_skip_fetch network tr rn f t :
  pruned_skip network tr rn f t -> AGetLogs rn "PostProof" f t ∈ tr.
Proof.
  intros (l1 & l2 & ->). apply elem_of_app. right.
  apply elem_of_cons. left. reflexivity.
Qed.

Lemma fetched_or_skipped_app network before rn lb0 tr tr' n :
  fetched_or_skipped network before rn lb0 tr n ->
  fetched_or_skipped network before rn lb0 (tr ++ tr') n.
Proof.
  intros H b Hb.
  destruct (H b Hb) as [(f & t & Hin & Hr)|(rn' & c' & f & t & Hin & Hs & Hr)].
  - left. exists f, t. split; [apply elem_of_app; left; exact Hin | exact Hr].
  - right. exists rn', c', f, t. split; [exact Hin|].
    split; [apply pruned_skip_app_r; exact Hs | exact Hr].
Qed.

Lemma accounted_app network contracts lb0 tr tr' n :
  accounted network contracts lb0 tr n ->
  accounted network contracts lb0 (tr ++ tr') n.
Proof.
  intros H before rn c after Heq. apply fetched_or_skipped_app.
  eapply H. exact Heq.
Qed.

(** Two places of one list: the first is at or before the second, or the
    second is before the first. *)
Lemma split_two {X} (a a' b b' : list X) (x y : X) :
  a ++ x :: b = a' ++ y :: b' -> x ∈ a' ++ [y] \/ y ∈ a.
Proof.
  intros H. apply app_eq_app in H as [m [[H1 H2]|[H1 H2]]].
  - destruct m as [|z m'].
    + simpl in H2. inversion H2; subst. left.
      apply elem_of_app. right. apply elem_of_cons. left. reflexivity.
    + inversion H2; subst. right.
      apply elem_of_app. right. apply elem_of_cons. left. reflexivity.
  - destruct m as [|z m'].
    + simpl in H2. inversion H2; subst. left.
      apply elem_of_app. right. apply elem_of_cons. left. reflexivity.
    + inversion H2; subst. left.
      apply elem_of_app. left. apply elem_of_app. right.
      apply elem_of_cons. left. reflexivity.
Qed.

(** What a pass adds to what the earlier passes have accounted for. *)
Lemma accounted_pass network contracts lb0 lb acc p n :
  lb0 <= lb ->
  accounted network contracts lb0 acc lb ->
  pass_accounted network contracts lb n p ->
  accounted network contracts lb0 (acc ++ p) n.
Proof.
  intros Hlb Hacc Hp before rn c after Heq b Hb.
  destruct (Z_le_gt_dec b lb) as [Hle|Hgt].
  - apply (fetched_or_skipped_app _ _ _ _ _ _ _ (Hacc _ _ _ _ Heq)). lia.
  - destruct Hp as [Hall | (d1 & rnj & cj & rest & Hsplit & Hskip & Hd1)].
    + left. exists (lb + 1), n. split; [|lia].
      apply elem_of_app. right. apply (Hall rn c). subst contracts.
      apply elem_of_app. right. apply elem_of_cons. left. reflexivity.
    + rewrite Heq in Hsplit.
      destruct (split_two _ _ _ _ _ _ Hsplit) as [Hin|Hin].
      * left. exists (lb + 1), n. split; [|lia].
        apply elem_of_app. right.
        apply elem_of_app in Hin as [Hin|Hin].
        -- apply (Hd1 rn c Hin).
        -- apply list_elem_of_singleton in Hin. inversion Hin; subst.
           eapply pruned_skip_fetch. exact Hskip.
      * right. exists rnj, cj, (lb + 1), n. split; [exact Hin|].
        split; [apply pruned_skip_app_l; exact Hskip | lia].
Qed.

(** The first element of a list that satisfies a test, if any. *)
Lemma first_such {X} (P : X -> bool) (l : list X) :
  (forall x, x ∈ l -> P x = false)
  \/ exists d1 x rest,
       l = d1 ++ x :: rest /\ (forall y, y ∈ d1 -> P y = false) /\ P x = true.
Proof.
  induction l as [|x l IH].
  - left. intros y Hin. apply elem_of_nil in Hin. contradiction.
  - destruct (P x) eqn:Hx.
    + right. exists [], x, l. split; [reflexivity|]. split; [|exact Hx].
      intros y Hin. apply elem_of_nil in Hin. contradiction.
    + destruct IH as [Hall|(d1 & y & rest & -> & Hd1 & Hy)].
      * left. intros y Hin. apply elem_of_cons in Hin as [->|Hin]; auto.
      * right. exists (x :: d1), y, rest. split; [reflexivity|].
        split; [|exact Hy].
        intros z Hin. apply elem_of_cons in Hin as [->|Hin]; auto.
Qed.

(** A chain that ends where it started is constant. *)
Lemma chain_const c l :
  chain c l -> last_from c l <= c -> forall x, x ∈ l -> x = c.
Proof.
  revert c. induction l as [|y l IH]; intros c Hc Hl x Hin.
  - apply elem_of_nil in Hin. contradiction.
  - simpl in Hc, Hl. destruct Hc as [Hcy Hc].
    pose proof (chain_le _ _ Hc) as Hle.
    assert (y = c) by lia. subst y.
    apply elem_of_cons in Hin as [->|Hin]; [reflexivity|].
    eapply IH; eauto.
Qed.

(** An assignment in a trace whose first assignment is known. *)
Lemma split_after_quiet pre0 n0 rest0 p n q :
  assigned pre0 = [] ->
  pre0 ++ ASetLastBlock n0 :: rest0 = p ++ ASetLastBlock n :: q ->
  exists m, p = pre0 ++ m /\ (n = n0 \/ n ∈ assigned rest0).
Proof.
  intros Hq Heq. apply app_eq_app in Heq as [m [[H1 H2]|[H1 H2]]].
  - destruct m as [|a m'].
    + simpl in H2. inversion H2; subst. exists [].
      split; [rewrite !app_nil_r; reflexivity | left; reflexivity].
    + inversion H2; subst. rewrite assigned_app in Hq. simpl in Hq.
      apply app_eq_nil in Hq as [_ Hq]. discriminate.
  - destruct m as [|a m'].
    + simpl in H2. inversion H2; subst. exists [].
      split; [reflexivity | left; reflexivity].
    + inversion H2; subst. exists (ASetLastBlock n0 :: m').
      split; [reflexivity|]. right. rewrite assigned_app.
      apply elem_of_app. right. simpl. apply elem_of_cons. left. reflexivity.
Qed.

(** An assignment in a trace that ends without assignments. *)
Lemma split_before_quiet l1 tail p n q :
  assigned tail = [] ->
  l1 ++ tail = p ++ ASetLastBlock n :: q ->
  exists m, l1 = p ++ ASetLastBlock n :: m.
Proof.
  intros Hq Heq. apply app_eq_app in Heq as [m [[H1 H2]|[H1 H2]]].
  - destruct m as [|a m'].
    + simpl in H2. subst tail. discriminate.
    + inversion H2; subst. exists m'. reflexivity.
  - subst tail. rewrite assigned_app in Hq. simpl in Hq.
    apply app_eq_nil in Hq as [_ Hq]. discriminate.
Qed.

Lemma not_assigned_in p n q : assigned (p ++ ASetLastBlock n :: q) = [] -> False.
Proof.
  rewrite assigned_app. simpl. intros H.
  apply app_eq_nil in H as [_ H]. discriminate.
Qed.

Section Cover.
Context {C D : Type} {cache_ops : CacheLike C}.
Variable network : string.
Variable ev_func : RawLogEvent -> D -> D * result unit.

(** A sweep at the height [h]: every assignment it makes assigns [h] and
    comes after the fetches of a pruned-range skip; a sweep that returns
    has fetched the range for every contract or has skipped it. *)
Lemma sweep_accounted env h contracts (st : State C D) :
  last_block st <= h ->
  exists new,
    trace (world (fst (sweep network ev_func env h contracts st)))
    = trace (world st) ++ new
    /\ (forall p n q, new = p ++ ASetLastBlock n :: q ->
          n = h /\ pass_accounted network contracts (last_block st) h p)
    /\ (snd (sweep network ev_func env h contracts st) = Ok tt ->
        pass_accounted network contracts (last_block st) h new)
    /\ (last_block (fst (sweep network ev_func env h contracts st))
        = last_block st
        \/ exists p q,
             new = p ++ ASetLastBlock
                          (last_block
                             (fst (sweep network ev_func env h contracts st)))
                        :: q).
Proof.
  intros Hle.
  destruct (first_such
              (fun rc : string * Contract =>
                 fetch_pruned
                   (get_logs env rc.2 "PostProof" (last_block st + 1) h))
              contracts)
    as [Hnone | (d1 & [rnj cj] & rest & Heq & Hd1 & Hj)].
  - destruct (sweep_unpruned network ev_func env h contracts st Hnone)
      as (new & Hs & Has & _ & Hall).
    destruct Hs as (Ht & _ & _ & Hl & _). rewrite Has in Hl. simpl in Hl.
    exists new. split; [exact Ht|]. split; [|split].
    + intros p n q Hsplit. exfalso. rewrite Hsplit in Has.
      exact (not_assigned_in _ _ _ Has).
    + intros Hok. left. apply Hall. exact Hok.
    + left. exact Hl.
  - subst contracts. rewrite sweep_app.
    destruct (sweep_unpruned network ev_func env h d1 st Hd1)
      as (n1 & Hs1 & Has1 & _ & Hall1).
    destruct Hs1 as (Ht1 & _ & _ & Hl1 & _). rewrite Has1 in Hl1. simpl in Hl1.
    destruct (sweep network ev_func env h d1 st) as [st1 [[]|e]];
      cbn [fst snd] in *.
    + rewrite sweep_cons, poll_contract_eq. cbn zeta.
      simpl in Hj. rewrite Hl1.
      destruct (get_logs env cj "PostProof" (last_block st + 1) h)
        as [logs|e]; [discriminate|].
      simpl in Hj. rewrite Hj.
      destruct (hoare_sweep network ev_func env h rest
                  (skipped_to network h rnj st1))
        as (n3 & Hs3 & Hle3 & _); [simpl; lia|].
      destruct Hs3 as (Ht3 & _ & Hch3 & Hl3 & _).
      cbn [skipped_to last_block world trace] in Ht3, Hch3, Hl3.
      rewrite Hl1, Ht1 in Ht3.
      set (G := AGetLogs rnj "PostProof" (last_block st + 1) h) in *.
      set (W := APrint (MsgPruned network h)) in *.
      assert (Hpre0 : assigned (n1 ++ [G; W]) = []).
      { rewrite assigned_app, Has1. reflexivity. }
      assert (Hacc : forall m,
                 pass_accounted network (d1 ++ (rnj, cj) :: rest)
                   (last_block st) h ((n1 ++ [G; W]) ++ m)).
      { intros m. right. exists d1, rnj, cj, rest. split; [reflexivity|].
        split.
        - exists n1, m. rewrite <- app_assoc. reflexivity.
        - intros rn c Hin. apply elem_of_app. left. apply elem_of_app. left.
          apply (Hall1 eq_refl rn c Hin). }
      assert (Hlast : last_from h (assigned n3) = h).
      { pose proof (chain_le _ _ Hch3). rewrite <- Hl3 in *. lia. }
      exists ((n1 ++ [G; W]) ++ ASetLastBlock h :: n3).
      split; [rewrite Ht3, <- !app_assoc; reflexivity|].
      split; [|split].
      * intros p n q Hsplit.
        destruct (split_after_quiet _ _ _ _ _ _ Hpre0 Hsplit)
          as (m & -> & Hn).
        split; [|apply Hacc].
        destruct Hn as [->|Hin]; [reflexivity|].
        apply (chain_const h (assigned n3) Hch3); [lia | exact Hin].
      * intros _. apply Hacc.
      * right. exists (n1 ++ [G; W]), n3. rewrite Hl3, Hlast. reflexivity.
    + exists n1. split; [exact Ht1|]. split; [|split].
      * intros p n q Hsplit. exfalso. rewrite Hsplit in Has1.
        exact (not_assigned_in _ _ _ Has1).
      * intros Hok. discriminate.
      * left. exact Hl1.
Qed.

(** A pass: every assignment it makes comes after the fetches of the
    range from the cursor plus 1 to the value assigned. *)
Lemma tick_accounted env contracts (st : State C D) :
  exists new,
    trace (world (fst (tick network ev_func env contracts st)))
    = trace (world st) ++ new
    /\ (forall p n q, new = p ++ ASetLastBlock n :: q ->
          pass_accounted network contracts (last_block st) n p)
    /\ (last_block (fst (tick network ev_func env contracts st))
        = last_block st
        \/ exists p q,
             new = p ++ ASetLastBlock
                          (last_block
                             (fst (tick network ev_func env contracts st)))
                        :: q)
    /\ last_block st
       <= last_block (fst (tick network ev_func env contracts st)).
Proof.
  rewrite tick_cases.
  assert (Hquiet : forall tail, assigned tail = [] ->
            exists new,
              trace (world (add_trace st tail)) = trace (world st) ++ new
              /\ (forall p n q, new = p ++ ASetLastBlock n :: q ->
                    pass_accounted network contracts (last_block st) n p)
              /\ (last_block (add_trace st tail) = last_block st
                  \/ exists p q,
                       new = p ++ ASetLastBlock
                                    (last_block (add_trace st tail)) :: q)
              /\ last_block st <= last_block (add_trace st tail)).
  { intros tail Htail. exists tail. split; [reflexivity|]. split; [|split].
    - intros p n q Hsplit. exfalso. rewrite Hsplit in Htail.
      exact (not_assigned_in _ _ _ Htail).
    - left. reflexivity.
    - simpl. lia. }
  destruct (block_number env) as [h|e].
  - destruct (h >? last_block st) eqn:Hg.
    + apply Z.gtb_lt in Hg.
      destruct (sweep_accounted env h contracts st)
        as (n1 & Ht1 & HA & HB & HC); [lia|].
      destruct (sweep network ev_func env h contracts st) as [st1 [[]|e]];
        cbn [fst snd] in *.
      * destruct (commit_eq network h st1) as (w' & n2 & Heq & Ht2 & Hn2 & _).
        rewrite Heq, sleep_eq. cbn [fst world trace add_trace last_block].
        assert (Htail : assigned (n2 ++ [ASleep 3]) = []).
        { rewrite assigned_app, (assigned_neutral _ Hn2). reflexivity. }
        exists (n1 ++ ASetLastBlock h :: n2 ++ [ASleep 3]).
        split. { rewrite Ht2, Ht1, <- !app_assoc. reflexivity. }
        split; [|split; [|lia]].
        -- intros p n q Hsplit.
           apply app_eq_app in Hsplit as [m [[H1 H2]|[H1 H2]]].
           ++ destruct m as [|a m'].
              ** rewrite app_nil_r in H1. simpl in H2. inversion H2; subst.
                 apply HB. reflexivity.
              ** inversion H2; subst.
                 destruct (HA p n m' eq_refl) as [-> Hp]. exact Hp.
           ++ destruct m as [|a m'].
              ** rewrite app_nil_r in H1. simpl in H2. inversion H2; subst.
                 apply HB. reflexivity.
              ** inversion H2 as [[Ha Hm]]. exfalso. rewrite Hm in Htail.
                 exact (not_assigned_in _ _ _ Htail).
        -- right. exists n1, (n2 ++ [ASleep 3]). reflexivity.
      * rewrite backoff_eq. cbn [fst].
        exists (n1 ++ [APrint (MsgListenerError network e); ASleep 5]).
        split. { simpl. rewrite Ht1, <- app_assoc. reflexivity. }
        split; [|split].
        -- intros p n q Hsplit.
           destruct (split_before_quiet
                       n1 [APrint (MsgListenerError network e); ASleep 5]
                       p n q eq_refl Hsplit) as (m & Hm).
           destruct (HA p n m Hm) as [-> Hp]. exact Hp.
        -- simpl. destruct HC as [Hl|(p & q & Hpq)]; [left; exact Hl|].
           right.
           exists p, (q ++ [APrint (MsgListenerError network e); ASleep 5]).
           rewrite Hpq at 1. rewrite <- app_assoc. reflexivity.
        -- simpl. destruct HC as [Hl|(p & q & Hpq)]; [lia|].
           destruct (HA _ _ _ Hpq) as [Hh _]. lia.
    + rewrite sleep_eq. cbn [fst]. apply Hquiet. reflexivity.
  - rewrite backoff_eq. cbn [fst]. apply Hquiet. reflexivity.
Qed.

(** Any number of passes, on top of the actions [acc] of earlier ones. *)
Lemma run_accounted envs contracts lb0 acc (st : State C D) :
  lb0 <= last_block st ->
  (forall pre n post, acc = pre ++ ASetLastBlock n :: post ->
     accounted network contracts lb0 pre n) ->
  accounted network contracts lb0 acc (last_block st) ->
  exists new,
    trace (world (fst (run network ev_func envs contracts st)))
    = trace (world st) ++ new
    /\ (forall pre n post, acc ++ new = pre ++ ASetLastBlock n :: post ->
          accounted network contracts lb0 pre n)
    /\ accounted network contracts lb0 (acc ++ new)
         (last_block (fst (run network ev_func envs contracts st))).
Proof.
  revert acc st. induction envs as [|env envs IH]; intros acc st Hlb Hacc Hcur.
  - exists []. simpl. rewrite !app_nil_r. auto.
  - rewrite run_cons.
    destruct (tick_accounted env contracts st) as (n1 & Ht1 & HA & HC & Hle).
    assert (Hacc1 : forall pre n post,
               acc ++ n1 = pre ++ ASetLastBlock n :: post ->
               accounted network contracts lb0 pre n).
    { intros pre n post Heq.
      apply app_eq_app in Heq as [m [[H1 H2]|[H1 H2]]].
      - destruct m as [|a m'].
        + simpl in H2. rewrite app_nil_r in H1. subst pre.
          rewrite <- (app_nil_r acc).
          apply (accounted_pass network contracts lb0 (last_block st));
            [exact Hlb | exact Hcur|].
          apply (HA [] n post). symmetry. exact H2.
        + inversion H2; subst. eapply Hacc. reflexivity.
      - subst pre.
        apply (accounted_pass network contracts lb0 (last_block st));
          [exact Hlb | exact Hcur|].
        apply (HA m n post). exact H2. }
    assert (Hcur1 : accounted network contracts lb0 (acc ++ n1)
                      (last_block (fst (tick network ev_func env contracts st)))).
    { destruct HC as [Hl|(p & q & Hpq)].
      - rewrite Hl. apply accounted_app. exact Hcur.
      - pose proof (HA _ _ _ Hpq) as Hp.
        rewrite Hpq at 1. rewrite app_assoc. apply accounted_app.
        apply (accounted_pass network contracts lb0 (last_block st));
          [exact Hlb | exact Hcur | exact Hp]. }
    destruct (IH (acc ++ n1) (fst (tick network ev_func env contracts st)))
      as (n2 & Ht2 & Hacc2 & Hcur2); [lia | exact Hacc1 | exact Hcur1 |].
    exists (n1 ++ n2). rewrite Ht2, Ht1, !app_assoc. auto.
Qed.

End Cover.

(** ** The cursor store *)

Section CursorStoreFacts.
Context {C D : Type} {cache_ops : CacheLike C}.

Lemma load_last_block_eq key default (w : World C D) :
  load_last_block key default w = (w, Ok (stored_or default (cache w) key)).
Proof.
  unfold load_last_block, stored_or, bind, try_except, cache_get_call,
    of_result, ret.
  destruct (cache_get (cache w) key) as [val|e]; [|reflexivity].
  destruct (is_not_None val); [|reflexivity].
  destruct (py_int val); reflexivity.
Qed.

Lemma save_last_block_ok key n (w : World C D) c' :
  cache_set (cache w) key (PyStr (py_str n)) = (c', Ok tt) ->
  save_last_block key n w
  = ({| cache := c'; offchain_db := offchain_db w;
        trace := trace w ++ [ACacheSet key (PyStr (py_str n))] |}, Ok tt).
Proof.
  intros Hset. unfold save_last_block, try_except, cache_set_call.
  rewrite Hset. reflexivity.
Qed.

End CursorStoreFacts.

(** ** Keys and identities *)

Lemma NoDup_identities network (l : list RawLogEvent) :
  NoDup (dedupe_key_of network <$> l) -> NoDup (event_identity network <$> l).
Proof.
  intros Hk.
  apply (NoDup_fmap_1 (fun i : string * list Byte.byte * Z =>
                         (i.1.1, hex i.1.2, i.2))).
  rewrite <- list_fmap_compose. exact Hk.
Qed.

(** ** The contracts of the loop *)

(** The loop polls exactly the registries of the configuration other than
    ["ValidatorRegistry"], each with the ABI filed under its name. *)
Lemma prepare_contracts_elem registry_contracts abi_map contracts :
  prepare_contracts registry_contracts abi_map = Ok contracts ->
  forall rn c,
    (rn, c) ∈ contracts <->
    rn <> "ValidatorRegistry"
    /\ (rn, contract_address c) ∈ registry_contracts
    /\ abi_map !! rn = Some (contract_abi c).
Proof.
  revert contracts.
  induction registry_contracts as [|[name addr] rest IH]; intros contracts Hp rn c.
  - inversion Hp; subst. split.
    + intros Hin. apply elem_of_nil in Hin. contradiction.
    + intros (_ & Hin & _). apply elem_of_nil in Hin. contradiction.
  - simpl in Hp. destruct (String.eqb_spec name "ValidatorRegistry") as [Hv|Hv].
    + rewrite (IH _ Hp rn c). rewrite elem_of_cons. split.
      * intros (Hn & Hin & Habi). auto.
      * intros (Hn & [Heq|Hin] & Habi); [|auto].
        inversion Heq; subst. contradiction.
    + destruct (abi_map !! name) as [abi|] eqn:Habi0; [|discriminate].
      destruct (prepare_contracts rest abi_map) as [cs|e]; [|discriminate].
      inversion Hp; subst contracts. rewrite !elem_of_cons.
      rewrite (IH cs eq_refl rn c). split.
      * intros [Heq|(Hn & Hin & Habi)].
        -- inversion Heq; subst. simpl. auto.
        -- auto.
      * intros (Hn & [Heq|Hin] & Habi).
        -- inversion Heq; subst. left. destruct c as [a b]. simpl in *.
           rewrite Habi0 in Habi. inversion Habi. reflexivity.
        -- right. auto.
Qed.

(** ** [int(str(n))] *)

Lemma uint_val_acc d : forall acc,
  uint_val (Z.pos acc) d = Z.pos (Pos.of_uint_acc d acc).
Proof.
  induction d as [|d IH|d IH|d IH|d IH|d IH|d IH|d IH|d IH|d IH|d IH];
    intros acc; simpl; [reflexivity|..];
    rewrite <- IH; f_equal; lia.
Qed.

Lemma uint_val_0 d : uint_val 0 d = Z.of_N (Pos.of_uint d).
Proof.
  induction d as [|d IH|d IH|d IH|d IH|d IH|d IH|d IH|d IH|d IH|d IH];
    simpl; [reflexivity | exact IH |..];
    apply (uint_val_acc d).
Qed.

Lemma digits_val_uint d : forall acc,
  digits_val acc true (list_ascii_of_string (NilEmpty.string_of_uint d))
  = Some (uint_val acc d).
Proof.
  induction d as [|d IH|d IH|d IH|d IH|d IH|d IH|d IH|d IH|d IH|d IH];
    intros acc; simpl; [reflexivity|..]; rewrite IH; f_equal; f_equal; lia.
Qed.

Lemma digits_val_uint_start d :
  d <> Decimal.Nil ->
  digits_val 0 false (list_ascii_of_string (NilEmpty.string_of_uint d))
  = Some (uint_val 0 d).
Proof.
  destruct d; intros Hd; try contradiction; simpl; apply digits_val_uint.
Qed.

Lemma strip_no_space l : Forall no_space l -> strip l = l.
Proof.
  assert (Hl : forall l0, Forall no_space l0 -> lstrip l0 = l0).
  { intros l0 Hl0. destruct Hl0 as [|c l1 Hc _]; [reflexivity|].
    simpl. unfold no_space in Hc. rewrite Hc. reflexivity. }
  intros Hf. unfold strip. rewrite (Hl l Hf).
  rewrite Hl; [apply rev_involutive|].
  apply Forall_rev. exact Hf.
Qed.

Lemma uint_no_space d :
  Forall no_space (list_ascii_of_string (NilEmpty.string_of_uint d)).
Proof.
  induction d; simpl; constructor; try reflexivity; assumption.
Qed.

Lemma int_of_str_of_int (i : Decimal.int) :
  int_of_str (NilZero.string_of_int i) = Some (Z.of_int i).
Proof.
  unfold int_of_str. destruct i as [d|d]; simpl.
  - unfold NilZero.string_of_uint.
    destruct (Decimal.uint_eq_dec d Decimal.Nil) as [->|Hd]; [reflexivity|].
    replace (match d with Decimal.Nil => "0" | _ => NilEmpty.string_of_uint d end)
      with (NilEmpty.string_of_uint d) by (destruct d; congruence).
    rewrite strip_no_space by apply uint_no_space.
    unfold Z.of_uint. rewrite <- uint_val_0, <- (digits_val_uint_start d Hd).
    destruct d; try contradiction; reflexivity.
  - unfold NilZero.string_of_uint.
    destruct (Decimal.uint_eq_dec d Decimal.Nil) as [->|Hd]; [reflexivity|].
    replace (match d with Decimal.Nil => "0" | _ => NilEmpty.string_of_uint d end)
      with (NilEmpty.string_of_uint d) by (destruct d; congruence).
    rewrite strip_no_space
      by (constructor; [reflexivity | apply uint_no_space]).
    rewrite (digits_val_uint_start d Hd). simpl.
    unfold Z.of_uint. rewrite uint_val_0. reflexivity.
Qed.

(** What [save_last_block] writes reads back as the number saved. *)
Lemma py_int_py_str n : py_int (PyStr (py_str n)) = Ok n.
Proof.
  unfold py_int, py_str. rewrite int_of_str_of_int, DecimalZ.of_to. reflexivity.
Qed.

(** ** Keys *)

Lemma string_length_app (s1 s2 : string) :
  String.length (s1 +:+ s2) = (String.length s1 + String.length s2)%nat.
Proof. induction s1 as [|a s1 IH]; simpl; [reflexivity | rewrite IH; reflexivity]. Qed.

Lemma string_app_inv_tail (s1 s2 t : string) :
  s1 +:+ t = s2 +:+ t -> s1 = s2.
Proof.
  revert s2. induction s1 as [|a s1 IH]; intros [|b s2] Heq.
  - reflexivity.
  - apply (f_equal String.length) in Heq.
    rewrite !string_length_app in Heq. simpl in Heq. lia.
  - apply (f_equal String.length) in Heq.
    rewrite !string_length_app in Heq. simpl in Heq. lia.
  - change (String a (s1 +:+ t) = String b (s2 +:+ t)) in Heq.
    inversion Heq as [[Ha Ht]]. f_equal. apply IH. exact Ht.
Qed.

Lemma hex_digit_inj (a b : N) :
  (a < 16)%N -> (b < 16)%N -> hex_digit a = hex_digit b -> a = b.
Proof.
  intros Ha Hb Heq. apply (f_equal N_of_ascii) in Heq.
  unfold hex_digit in Heq.
  destruct (a <? 10)%N eqn:Ea; destruct (b <? 10)%N eqn:Eb;
    rewrite !N_ascii_embedding in Heq by lia;
    try apply N.ltb_lt in Ea; try apply N.ltb_lt in Eb;
    try apply N.ltb_ge in Ea; try apply N.ltb_ge in Eb; lia.
Qed.

Lemma byte_to_N_inj (x y : Byte.byte) : Byte.to_N x = Byte.to_N y -> x = y.
Proof.
  intros Heq. pose proof (Byte.of_to_N x) as Hx.
  rewrite Heq, Byte.of_to_N in Hx. inversion Hx. reflexivity.
Qed.

Lemma hex_inj (bs1 bs2 : list Byte.byte) : hex bs1 = hex bs2 -> bs1 = bs2.
Proof.
  revert bs2. induction bs1 as [|x bs1 IH]; intros [|y bs2] Heq;
    simpl in Heq; try discriminate; [reflexivity|].
  inversion Heq as [[Hhi Hlo Hrest]].
  pose proof (Byte.to_N_bounded x) as Bx.
  pose proof (Byte.to_N_bounded y) as By.
  apply hex_digit_inj in Hhi;
    [|apply N.Div0.div_lt_upper_bound; lia | apply N.Div0.div_lt_upper_bound; lia].
  apply hex_digit_inj in Hlo;
    [|apply N.mod_upper_bound; lia | apply N.mod_upper_bound; lia].
  f_equal; [|apply IH; exact Hrest].
  apply byte_to_N_inj.
  rewrite (N.div_mod (Byte.to_N x) 16), (N.div_mod (Byte.to_N y) 16) by lia.
  rewrite Hhi, Hlo. reflexivity.
Qed.

(** ** The end of a pass *)

Section PassEnd.
Context {C D : Type} {cache_ops : CacheLike C}.
Variable network : string.
Variable ev_func : RawLogEvent -> D -> D * result unit.

(** [commit] assigns the cursor, writes it to the cache under the key of
    the network, and prints one line when the write failed. *)
Lemma commit_trace h (st : State C D) :
  exists w' msgs,
    commit network h st
    = ({| seen_logs := seen_logs st; last_block := h; world := w' |}, Ok tt)
    /\ trace w'
       = trace (world st)
         ++ [ASetLastBlock h;
             ACacheSet (last_block_key network) (PyStr (py_str h))] ++ msgs
    /\ (msgs = []
        \/ exists e, msgs = [APrint (MsgSaveFailed (last_block_key network) e)])
    /\ offchain_db w' = offchain_db (world st)
    /\ cache w'
       = fst (cache_set (cache (world st)) (last_block_key network)
                (PyStr (py_str h))).
Proof.
  unfold commit, bind, set_last_block, get, lift, emit, modify,
    save_last_block, try_except, cache_set_call, print, emit, modify; simpl.
  destruct (cache_set (cache (world st)) (last_block_key network)
              (PyStr (py_str h))) as [c' [[]|e]]; simpl.
  - eexists _, []. split; [reflexivity|].
    split; [rewrite <- app_assoc; reflexivity|]. auto.
  - eexists _, [_]. split; [reflexivity|].
    split; [rewrite <- !app_assoc; reflexivity|].
    split; [right; eexists; reflexivity|]. auto.
Qed.

(** A loop over logs with a handler that never raises returns. *)
Lemma dispatch_all_ok logs (st : State C D) :
  (forall ev db, snd (ev_func ev db) = Ok tt) ->
  snd (for_each logs (dispatch network ev_func) st) = Ok tt.
Proof.
  intros Hok. revert st. induction logs as [|ev logs IH]; intros st;
    [reflexivity|].
  simpl. unfold bind.
  destruct (dispatch network ev_func ev st) as [st1 r] eqn:Hd.
  assert (Hr : r = Ok tt).
  { unfold dispatch, bind, get, seen_logs_add, modify, call_handler in Hd.
    destruct (decide (dedupe_key_of network ev ∈ seen_logs st)).
    - inversion Hd. reflexivity.
    - simpl in Hd. specialize (Hok ev (offchain_db (world st))).
      destruct (ev_func ev (offchain_db (world st))) as [db' r'].
      simpl in Hok. inversion Hd. subst. reflexivity. }
  subst r. apply IH.
Qed.

(** A sweep with an answering provider and a handler that never raises
    returns. *)
Lemma sweep_ok env h contracts (st : State C D) :
  answers env ->
  (forall ev db, snd (ev_func ev db) = Ok tt) ->
  snd (sweep network ev_func env h contracts st) = Ok tt.
Proof.
  intros Hans Hok. revert st.
  induction contracts as [|[rn c] cs IH]; intros st; [reflexivity|].
  rewrite sweep_cons, poll_contract_eq. cbn zeta.
  pose proof (Hans c "PostProof" (last_block st + 1) h) as Hc.
  destruct (get_logs env c "PostProof" (last_block st + 1) h) as [logs|e].
  - pose proof (dispatch_all_ok logs
                  (add_trace st [AGetLogs rn "PostProof" (last_block st + 1) h])
                  Hok) as Hd.
    destruct (for_each logs (dispatch network ev_func)
                (add_trace st [AGetLogs rn "PostProof" (last_block st + 1) h]))
      as [st1 r]. simpl in Hd. subst r. apply IH.
  - rewrite Hc. apply IH.
Qed.
End PassEnd.

Lemma sweep_action_pass new : Forall sweep_action new -> Forall pass_action new.
Proof.
  intros Hf. eapply Forall_impl; [exact Hf|].
  intros [[]| | | | |] Ha; simpl in *; auto.
Qed.

(** ** The cache writes of a pass *)

Section PassWrites.
Context {C D : Type} {cache_ops : CacheLike C}.
Variable network : string.
Variable ev_func : RawLogEvent -> D -> D * result unit.

(** A pass writes the cache at most once: under the key of the network,
    the cursor it ends with, which is then above the cursor it started
    with. *)
Lemma tick_writes env contracts (st : State C D) :
  exists new,
    trace (world (fst (tick network ev_func env contracts st)))
    = trace (world st) ++ new
    /\ ((cache_writes new = []
         /\ last_block st
            <= last_block (fst (tick network ev_func env contracts st)))
        \/ (cache_writes new
            = [(last_block_key network,
                PyStr (py_str (last_block
                                 (fst (tick network ev_func env contracts st)))))]
            /\ last_block st
               < last_block (fst (tick network ev_func env contracts st)))).
Proof.
  rewrite tick_cases.
  destruct (block_number env) as [h|e].
  - destruct (h >? last_block st) eqn:Hg.
    + apply Z.gtb_lt in Hg.
      destruct (hoare_sweep network ev_func env h contracts st)
        as (n1 & Hs1 & Hle1 & HA1); [simpl; lia|].
      pose proof (steps_le _ _ _ _ Hs1) as Hle.
      destruct Hs1 as (Ht1 & _).
      pose proof (cache_writes_sweep _ HA1) as Hw1.
      destruct (sweep network ev_func env h contracts st) as [st1 [[]|e]];
        cbn [fst snd] in *.
      * destruct (commit_trace network h st1)
          as (w' & msgs & Heq & Ht & Hmsgs & _).
        rewrite Heq, sleep_eq. cbn [fst world trace add_trace last_block].
        eexists. split; [rewrite Ht, Ht1, <- !app_assoc; reflexivity|].
        right. split; [|exact Hg].
        rewrite !cache_writes_app, Hw1.
        destruct Hmsgs as [->|[e ->]]; reflexivity.
      * rewrite backoff_eq. cbn [fst world trace add_trace last_block].
        eexists. split; [rewrite Ht1, <- app_assoc; reflexivity|].
        left. split; [|exact Hle].
        rewrite cache_writes_app, Hw1. reflexivity.
    + rewrite sleep_eq. exists [ASleep 3]. split; [reflexivity|].
      left. split; [reflexivity | simpl; lia].
  - rewrite backoff_eq. eexists. split; [reflexivity|].
    left. split; [reflexivity | simpl; lia].
Qed.

Lemma rising_weaken c c' l : c <= c' -> rising c' l -> rising c l.
Proof. destruct l as [|x l]; simpl; [auto|]. intros Hc [Hx Hl]. split; [lia | exact Hl]. Qed.

Lemma last_from_mono c c' l : c <= c' -> last_from c l <= last_from c' l.
Proof. destruct l as [|x l]; simpl; lia. Qed.
End PassWrites.

(** ** What the handler calls change *)

Lemma keys_of_nil network : keys_of network [] = ∅.
Proof. reflexivity. Qed.

Lemma keys_of_app network l1 l2 :
  keys_of network (l1 ++ l2) = keys_of network l1 ∪ keys_of network l2.
Proof. unfold keys_of. rewrite fmap_app. apply list_to_set_app_L. Qed.

Lemma keys_of_cons network ev l :
  keys_of network (ev :: l) = {[dedupe_key_of network ev]} ∪ keys_of network l.
Proof. reflexivity. Qed.

Lemma union_swap (A B S : gset DedupeKey) : B ∪ (A ∪ S) = (A ∪ B) ∪ S.
Proof.
  apply set_eq. intros x. rewrite !elem_of_union. tauto.
Qed.

Section Touched.
Context {C D : Type} {cache_ops : CacheLike C}.
Variable network : string.
Variable ev_func : RawLogEvent -> D -> D * result unit.

Lemma touched_frame (st st' : State C D) new :
  trace (world st') = trace (world st) ++ new ->
  handled new = [] ->
  seen_logs st' = seen_logs st ->
  offchain_db (world st') = offchain_db (world st) ->
  touched network ev_func st new st'.
Proof.
  intros Ht Hh Hs Hd. unfold touched. rewrite Hh, keys_of_nil.
  split; [exact Ht|]. split; [rewrite Hs, union_empty_l_L; reflexivity|].
  exact Hd.
Qed.

Lemma touched_trans (st st1 st2 : State C D) n1 n2 :
  touched network ev_func st n1 st1 -> touched network ev_func st1 n2 st2 ->
  touched network ev_func st (n1 ++ n2) st2.
Proof.
  intros (T1 & S1 & D1) (T2 & S2 & D2). unfold touched.
  rewrite handled_app, keys_of_app.
  split; [rewrite T2, T1, app_assoc; reflexivity|].
  split; [rewrite S2, S1; apply union_swap|].
  rewrite D2, D1. unfold handler_effects. rewrite fold_left_app. reflexivity.
Qed.

Lemma touched_dispatch_all logs (st : State C D) :
  exists new,
    touched network ev_func st new
      (fst (for_each logs (dispatch network ev_func) st)).
Proof.
  revert st. induction logs as [|ev logs IH]; intros st.
  - exists []. apply touched_frame; simpl; auto using app_nil_r.
  - simpl. unfold bind.
    assert (Hd : exists n1, touched network ev_func st n1
                              (fst (dispatch network ev_func ev st))).
    { unfold dispatch, bind, get, seen_logs_add, modify, call_handler.
      destruct (decide (dedupe_key_of network ev ∈ seen_logs st)); simpl.
      - exists []. apply touched_frame; simpl; auto using app_nil_r.
      - destruct (ev_func ev (offchain_db (world st))) as [db' r] eqn:Hev.
        exists [AHandler ev]. unfold touched; simpl.
        rewrite keys_of_cons, keys_of_nil, union_empty_r_L.
        unfold handler_effects; simpl. rewrite Hev. auto. }
    destruct Hd as (n1 & H1).
    destruct (dispatch network ev_func ev st) as [st1 [[]|e]]; cbn [fst] in *.
    + destruct (IH st1) as (n2 & H2). exists (n1 ++ n2).
      eapply touched_trans; eauto.
    + exists n1. exact H1.
Qed.

Lemma touched_poll_contract env h rc (st : State C D) :
  exists new,
    touched network ev_func st new
      (fst (poll_contract network ev_func env h rc st)).
Proof.
  destruct rc as [rn c]. rewrite poll_contract_eq. cbn zeta.
  assert (HG : touched network ev_func st
                 [AGetLogs rn "PostProof" (last_block st + 1) h]
                 (add_trace st [AGetLogs rn "PostProof" (last_block st + 1) h])).
  { apply touched_frame; reflexivity. }
  destruct (get_logs env c "PostProof" (last_block st + 1) h) as [logs|e].
  - destruct (touched_dispatch_all logs
                (add_trace st [AGetLogs rn "PostProof" (last_block st + 1) h]))
      as (n2 & H2).
    eexists. eapply touched_trans; eauto.
  - destruct (is_pruned_error e); cbn [fst].
    + eexists. apply touched_frame; reflexivity.
    + eexists. exact HG.
Qed.

Lemma touched_sweep env h contracts (st : State C D) :
  exists new,
    touched network ev_func st new
      (fst (sweep network ev_func env h contracts st)).
Proof.
  revert st. induction contracts as [|rc cs IH]; intros st.
  - exists []. apply touched_frame; simpl; auto using app_nil_r.
  - rewrite sweep_cons.
    destruct (touched_poll_contract env h rc st) as (n1 & H1).
    destruct (poll_contract network ev_func env h rc st) as [st1 [[]|e]];
      cbn [fst] in *.
    + destruct (IH st1) as (n2 & H2). exists (n1 ++ n2).
      eapply touched_trans; eauto.
    + exists n1. exact H1.
Qed.

Lemma touched_tick env contracts (st : State C D) :
  exists new,
    touched network ev_func st new
      (fst (tick network ev_func env contracts st)).
Proof.
  rewrite tick_cases.
  destruct (block_number env) as [h|e].
  - destruct (h >? last_block st).
    + destruct (touched_sweep env h contracts st) as (n1 & H1).
      destruct (sweep network ev_func env h contracts st) as [st1 [[]|e]];
        cbn [fst] in *.
      * destruct (commit_trace network h st1)
          as (w' & msgs & Heq & Ht & Hmsgs & Hdb & _).
        rewrite Heq, sleep_eq. cbn [fst].
        eexists. eapply touched_trans; [exact H1|].
        apply (touched_frame st1 _
                 ([ASetLastBlock h;
                   ACacheSet (last_block_key network) (PyStr (py_str h))]
                  ++ msgs ++ [ASleep 3])).
        -- simpl. rewrite Ht, <- !app_assoc. reflexivity.
        -- destruct Hmsgs as [->|[e ->]]; reflexivity.
        -- reflexivity.
        -- exact Hdb.
      * rewrite backoff_eq. cbn [fst].
        eexists. eapply touched_trans; [exact H1|].
        apply touched_frame; reflexivity.
    + rewrite sleep_eq. eexists. apply touched_frame; reflexivity.
  - rewrite backoff_eq. eexists. apply touched_frame; reflexivity.
Qed.
End Touched.

(** ** The registries that are fetched *)

Section Fetched.
Context {C D : Type} {cache_ops : CacheLike C}.
Variable network : string.
Variable ev_func : RawLogEvent -> D -> D * result unit.
Variable names : list string.

Lemma hoare_poll_contract_in env cur rc :
  rc.1 ∈ names ->
  hoare network (fun st : State C D => last_block st <= cur) (fetch_in names)
    (poll_contract network ev_func env cur rc).
Proof.
  destruct rc as [rn c]. simpl. intros Hin.
  unfold poll_contract, subscriptions. cbn [for_each].
  apply hoare_bind; [|intros _; apply hoare_ret].
  unfold poll_event. apply hoare_bind.
  - apply hoare_try.
    + apply hoare_bind.
      * apply (hoare_get_logs_call network (fun lb => lb <= cur)).
        intros f. split; [exact Hin | reflexivity].
      * intros logs. apply hoare_ret.
    + intros e. unfold on_get_logs_error.
      destruct e as [[|err rest]| | | |]; try apply hoare_raise.
      destruct (is_pruned_code err); [|apply hoare_raise].
      apply hoare_bind.
      * apply (hoare_lift_emit network (fun lb => lb <= cur));
          [exact I | exact I | reflexivity].
      * intros _. apply hoare_bind; [apply hoare_set_last_block; exact I|].
        intros _. apply hoare_ret.
  - intros [logs|]; [|apply hoare_ret].
    apply hoare_for_each. intros ev.
    apply (hoare_dispatch network (fun lb => lb <= cur)). exact I.
Qed.

Lemma hoare_sweep_in env cur contracts :
  (forall rc, rc ∈ contracts -> rc.1 ∈ names) ->
  hoare network (fun st : State C D => last_block st <= cur) (fetch_in names)
    (sweep network ev_func env cur contracts).
Proof.
  unfold sweep. induction contracts as [|rc cs IH]; intros Hin; simpl.
  - apply hoare_ret.
  - apply hoare_bind.
    + apply hoare_poll_contract_in. apply Hin. apply elem_of_cons. auto.
    + intros _. apply IH. intros rc' Hrc'. apply Hin.
      apply elem_of_cons. auto.
Qed.

Lemma tick_fetches_in env contracts (st : State C D) :
  (forall rc, rc ∈ contracts -> rc.1 ∈ names) ->
  exists new,
    trace (world (fst (tick network ev_func env contracts st)))
    = trace (world st) ++ new
    /\ Forall (fetch_in names) new.
Proof.
  intros Hin. rewrite tick_cases.
  destruct (block_number env) as [h|e].
  - destruct (h >? last_block st) eqn:Hg.
    + apply Z.gtb_lt in Hg.
      destruct (hoare_sweep_in env h contracts Hin st)
        as (n1 & Hs1 & _ & HA1); [simpl; lia|].
      destruct Hs1 as (Ht1 & _).
      destruct (sweep network ev_func env h contracts st) as [st1 [[]|e]];
        cbn [fst snd] in *.
      * destruct (commit_trace network h st1)
          as (w' & msgs & Heq & Ht & Hmsgs & _).
        rewrite Heq, sleep_eq. cbn [fst world trace add_trace].
        eexists. split; [rewrite Ht, Ht1, <- !app_assoc; reflexivity|].
        apply Forall_app. split; [exact HA1|].
        destruct Hmsgs as [->|[e ->]]; repeat constructor.
      * rewrite backoff_eq. cbn [fst world trace add_trace].
        eexists. split; [rewrite Ht1, <- app_assoc; reflexivity|].
        apply Forall_app. split; [exact HA1 | repeat constructor].
    + rewrite sleep_eq. eexists. split; [reflexivity | repeat constructor].
  - rewrite backoff_eq. eexists. split; [reflexivity | repeat constructor].
Qed.

Lemma run_fetches_in envs contracts (st : State C D) :
  (forall rc, rc ∈ contracts -> rc.1 ∈ names) ->
  exists new,
    trace (world (fst (run network ev_func envs contracts st)))
    = trace (world st) ++ new
    /\ Forall (fetch_in names) new.
Proof.
  intros Hin. revert st. induction envs as [|env envs IH]; intros st.
  - exists []. simpl. rewrite app_nil_r. split; [reflexivity | constructor].
  - rewrite run_cons.
    destruct (tick_fetches_in env contracts st Hin) as (n1 & Ht1 & HA1).
    destruct (IH (fst (tick network ev_func env contracts st)))
      as (n2 & Ht2 & HA2).
    exists (n1 ++ n2). split; [rewrite Ht2, Ht1, app_assoc; reflexivity|].
    apply Forall_app. auto.
Qed.
End Fetched.

(** ** One log *)

Lemma dispatch_seen {C D : Type} network
    (handler : RawLogEvent -> D -> D * result unit) ev (st : State C D) :
  dedupe_key_of network ev ∈ seen_logs st ->
  dispatch network handler ev st = (st, Ok tt).
Proof.
  intros Hin. unfold dispatch, bind, get.
  destruct (decide (dedupe_key_of network ev ∈ seen_logs st));
    [reflexivity | contradiction].
Qed.

Lemma dispatch_unseen {C D : Type} network
    (handler : RawLogEvent -> D -> D * result unit) ev (st : State C D) :
  dedupe_key_of network ev ∉ seen_logs st ->
  dispatch network handler ev st
  = ({| seen_logs := {[dedupe_key_of network ev]} ∪ seen_logs st;
        last_block := last_block st;
        world := {| cache := cache (world st);
                    offchain_db := fst (handler ev (offchain_db (world st)));
                    trace := trace (world st) ++ [AHandler ev] |} |},
     snd (handler ev (offchain_db (world st)))).
Proof.
  intros Hnin. unfold dispatch, bind, get, seen_logs_add, modify, call_handler.
  destruct (decide (dedupe_key_of network ev ∈ seen_logs st));
    [contradiction|].
  simpl. destruct (handler ev (offchain_db (world st))); reflexivity.
Qed.

(** ** A pass with a healthy provider and handler *)

Section Healthy.
Context {C D : Type} {cache_ops : CacheLike C}.
Variable network : string.
Variable ev_func : RawLogEvent -> D -> D * result unit.

Lemma healthy_tick_cursor env contracts (st : State C D) h :
  block_number env = Ok h ->
  last_block st < h ->
  answers env ->
  (forall ev db, snd (ev_func ev db) = Ok tt) ->
  last_block (fst (tick network ev_func env contracts st)) = h.
Proof.
  intros Hh Hlt Hans Hok. rewrite tick_cases, Hh.
  assert (Hg : (h >? last_block st) = true) by (apply Z.gtb_lt; lia).
  rewrite Hg.
  pose proof (sweep_ok network ev_func env h contracts st Hans Hok) as Hsw.
  destruct (sweep network ev_func env h contracts st) as [st1 r];
    cbn [fst snd] in *. subst r.
  destruct (commit_trace network h st1) as (w' & msgs & Heq & _).
  rewrite Heq, sleep_eq. reflexivity.
Qed.

Lemma fetched_names_app t1 t2 :
  fetched_names (t1 ++ t2) = fetched_names t1 ++ fetched_names t2.
Proof. apply omap_app. Qed.

Lemma fetched_names_handlers new :
  Forall (fun a => match a with AHandler _ => True | _ => False end) new ->
  fetched_names new = [].
Proof.
  induction 1 as [|a t Ha _ IH]; [reflexivity|].
  destruct a; simpl in Ha; try contradiction; exact IH.
Qed.

(** Polling one contract fetches it once. *)
Lemma poll_contract_fetched env h rn c (st : State C D) :
  exists new,
    trace (world (fst (poll_contract network ev_func env h (rn, c) st)))
    = trace (world st) ++ new
    /\ fetched_names new = [rn].
Proof.
  rewrite poll_contract_eq. cbn zeta.
  destruct (get_logs env c "PostProof" (last_block st + 1) h) as [logs|e].
  - destruct (hoare_dispatch_all network (fun _ => True) ev_func logs
                (add_trace st [AGetLogs rn "PostProof" (last_block st + 1) h]) I)
      as (n1 & (Ht & _) & _ & HA).
    eexists. split; [rewrite Ht; simpl; rewrite <- app_assoc; reflexivity|].
    rewrite fetched_names_app, (fetched_names_handlers _ HA). reflexivity.
  - destruct (is_pruned_error e); eexists; split; reflexivity.
Qed.
End Healthy.

(** ** The scenarios of the design document *)

(** Nothing stored and height 100: the listener starts with the cursor 99.
    The first pass, at height 100, fetches block 100 for both contracts
    and moves the cursor to 100; the next pass, at height 101, fetches
    block 101 and moves the cursor to 101.  No handler is called. *)
Example scenario_fresh_start :
  network_validator_listener "fuji" record_event (Ok 100)
    [("RegistryA", "0xA"); ("ValidatorRegistry", "0xV"); ("RegistryB", "0xB")]
    {[ "RegistryA" := PyList []; "RegistryB" := PyList [] ]}
    [quiet 100; quiet 101] fresh_world
  = ({| cache := {| entries := {[ "fuji_all_contracts" := PyStr "101" ]};
                    readable := true; writable := true |};
        offchain_db := [];
        trace := [APrint (MsgListening "fuji" 2 100);
                  AGetLogs "RegistryA" "PostProof" 100 100;
                  AGetLogs "RegistryB" "PostProof" 100 100;
                  ASetLastBlock 100;
                  ACacheSet "fuji_all_contracts" (PyStr "100");
                  ASleep 3;
                  AGetLogs "RegistryA" "PostProof" 101 101;
                  AGetLogs "RegistryB" "PostProof" 101 101;
                  ASetLastBlock 101;
                  ACacheSet "fuji_all_contracts" (PyStr "101");
                  ASleep 3] |}, Ok tt).
Proof. vm_compute. reflexivity. Qed.

(** Event X of contract A, at block 50, is returned in two passes: the
    first pass fails on contract B after dispatching X and backs off with
    the cursor still at 10, the second fetches the same range again.  The
    handler is called once. *)
Example scenario_retried_backoff :
  let st' := fst (run "fuji" record_event [emits_at_50_limited_B 60; emits_at_50 60]
                    [registry_A; registry_B] (loop_state 10)) in
  trace (world st')
  = [AGetLogs "RegistryA" "PostProof" 11 60;
     AHandler proof_at_50;
     AGetLogs "RegistryB" "PostProof" 11 60;
     APrint (MsgListenerError "fuji" rate_limited);
     ASleep 5;
     AGetLogs "RegistryA" "PostProof" 11 60;
     AGetLogs "RegistryB" "PostProof" 11 60;
     ASetLastBlock 60;
     ACacheSet "fuji_all_contracts" (PyStr "60");
     ASleep 3]
  /\ offchain_db (world st') = [proof_at_50]
  /\ last_block st' = 60.
Proof. vm_compute. repeat split; reflexivity. Qed.

(** What [int] makes of a stored value: white space around the literal is
    dropped, a control character such as the file separator (code 28) is
    not white space for [int], [bytes] are read like a [str], and [True]
    is 1.  A stored cursor that [int] rejects makes [load_last_block]
    answer its default. *)
Example int_of_stored_values :
  py_int (PyStr (String (ascii_of_N 11) "5 ")) = Ok 5
  /\ py_int (PyStr (String (ascii_of_N 28) "5"))
     = Raise (ValueError [PyStr "invalid literal for int()"])
  /\ py_int (PyBytes "41") = Ok 41
  /\ py_int (PyBool true) = Ok 1
  /\ snd (load_last_block "fuji_all_contracts" 99
            (world_with
               {[ "fuji_all_contracts"
                  := PyStr (String (ascii_of_N 28) "5") ]}))
     = Ok 99.
Proof. vm_compute. repeat split. Qed.

(** * The claims of the design document *)

(** C1: in a run of [network_validator_listener] of any length, whatever
    the provider answers in each pass and whatever the handler does, the
    handler calls of the run are for pairwise different identities
    [(network, transactionHash, logIndex)]: no identity is dispatched
    twice.  The same holds for the passes made from any state of the
    loop. *)
Theorem handler_called_at_most_once {C D : Type} {cache_ops : CacheLike C}
    (network : string) (ev_func : RawLogEvent -> D -> D * result unit)
    (height : result Z) (registry_contracts : list (string * string))
    (abi_map : gmap string pyval) (envs : list TickEnv)
    (contracts : list (string * Contract)) (w : World C D) (st : State C D) :
  (exists new,
     trace (fst (network_validator_listener network ev_func height
                   registry_contracts abi_map envs w))
     = trace w ++ new
     /\ NoDup (event_identity network <$> handled new))
  /\ (exists new,
        trace (world (fst (run network ev_func envs contracts st)))
        = trace (world st) ++ new
        /\ NoDup (event_identity network <$> handled new)).
Proof.
  split.
  - unfold network_validator_listener, listener_init, bind, of_result.
    destruct height as [h|e]; [|exists []; simpl; rewrite app_nil_r;
                                 split; [reflexivity | constructor]].
    rewrite load_last_block_eq.
    destruct (prepare_contracts registry_contracts abi_map) as [cs|e];
      [|exists []; simpl; rewrite app_nil_r; split; [reflexivity | constructor]].
    simpl.
    match goal with
    | |- context [run _ _ _ _ ?s] =>
        destruct (run_steps network ev_func envs cs s) as (_ & new & Hs);
        destruct (run network ev_func envs cs s) as [st' r]
    end.
    destruct Hs as (Ht & _ & _ & _ & _ & Hnd & _). simpl in *.
    eexists. rewrite Ht, <- app_assoc. split; [reflexivity|].
    rewrite handled_app. simpl. apply NoDup_identities, Hnd.
  - destruct (run_steps network ev_func envs contracts st) as (_ & new & Hs).
    destruct Hs as (Ht & _ & _ & _ & _ & Hnd & _).
    exists new. split; [exact Ht | apply NoDup_identities, Hnd].
Qed.

(** C2: along the passes of the loop made from any state, the values
    assigned to [last_block] form, after the value it had at the start, a
    chain in which no value is below its predecessor; the cursor at the end
    is the last of them; and the cursor after some passes is at most the
    cursor after more passes.  ([reset_last_block] writes to the cache and
    is not called by the loop.) *)
Theorem cursor_non_decreasing {C D : Type} {cache_ops : CacheLike C}
    (network : string) (ev_func : RawLogEvent -> D -> D * result unit)
    (envs more : list TickEnv) (contracts : list (string * Contract))
    (st : State C D) :
  (exists new,
     trace (world (fst (run network ev_func envs contracts st)))
     = trace (world st) ++ new
     /\ chain (last_block st) (assigned new)
     /\ last_block (fst (run network ev_func envs contracts st))
        = last_from (last_block st) (assigned new))
  /\ last_block st <= last_block (fst (run network ev_func envs contracts st))
  /\ last_block (fst (run network ev_func envs contracts st))
     <= last_block (fst (run network ev_func (envs ++ more) contracts st)).
Proof.
  split; [|split].
  - destruct (run_steps network ev_func envs contracts st) as (_ & new & Hs).
    destruct Hs as (Ht & _ & Hc & Hl & _).
    exists new. auto.
  - destruct (run_steps network ev_func envs contracts st) as (_ & new & Hs).
    eapply steps_le, Hs.
  - rewrite run_app.
    destruct (run_steps network ev_func more contracts
                (fst (run network ev_func envs contracts st)))
      as (_ & new & Hs).
    eapply steps_le, Hs.
Qed.

(** C3, as stated, fails: contract A is answered with the pruned-range
    error, which moves the cursor from 10 to 20, and then the fetch for
    contract B fails with a rate-limit error.  The pass ends in the
    [except] clause with the cursor at 20, and the next pass fetches from
    21, not from 11. *)
Lemma hard_error_after_pruned_moves_cursor :
  let contracts := [registry_A; registry_B] in
  let st' := fst (tick "fuji" record_event (pruned_A_limited_B 20) contracts
                    (loop_state 10)) in
  is_pruned_error rate_limited = false
  /\ trace (world st')
     = [AGetLogs "RegistryA" "PostProof" 11 20;
        APrint (MsgPruned "fuji" 20);
        ASetLastBlock 20;
        AGetLogs "RegistryB" "PostProof" 21 20;
        APrint (MsgListenerError "fuji" rate_limited);
        ASleep 5]
  /\ last_block st' = 20
  /\ trace (world (fst (tick "fuji" record_event (quiet 25) contracts st')))
     = trace (world st')
       ++ [AGetLogs "RegistryA" "PostProof" 21 25;
           AGetLogs "RegistryB" "PostProof" 21 25;
           ASetLastBlock 25;
           ACacheSet "fuji_all_contracts" (PyStr "25");
           ASleep 3].
Proof. vm_compute. repeat split; reflexivity. Qed.

(** C3, amended: when a pass has reached the contract [c] and its fetch
    raises an error that is not the pruned-range one, the pass still
    returns normally: it prints the error and sleeps 5.  Nothing is written
    to the cache in that pass.  The cursor is the one the pass had when it
    reached [c]; when no earlier fetch of the pass was answered with the
    pruned-range error, that is the cursor from before the pass, nothing
    was assigned to it, and the next pass that sees new blocks starts by
    fetching from that same cursor plus 1. *)
Theorem hard_error_leaves_cursor {C D : Type} {cache_ops : CacheLike C}
    (network : string) (ev_func : RawLogEvent -> D -> D * result unit)
    (env : TickEnv) (h : Z)
    (pre post : list (string * Contract)) (rn : string) (c : Contract)
    (st st1 : State C D) (e : exn) :
  block_number env = Ok h ->
  last_block st < h ->
  sweep network ev_func env h pre st = (st1, Ok tt) ->
  get_logs env c "PostProof" (last_block st1 + 1) h = Raise e ->
  is_pruned_error e = false ->
  let contracts := pre ++ (rn, c) :: post in
  let st' := fst (tick network ev_func env contracts st) in
  snd (tick network ev_func env contracts st) = Ok tt
  /\ st' = add_trace st1
             [AGetLogs rn "PostProof" (last_block st1 + 1) h;
              APrint (MsgListenerError network (raised_by e));
              ASleep 5]
  /\ cache (world st') = cache (world st)
  /\ exists new,
       trace (world st') = trace (world st) ++ new
       /\ cache_writes new = []
       /\ ((forall rc, rc ∈ pre ->
              fetch_pruned (get_logs env rc.2 "PostProof" (last_block st + 1) h)
              = false) ->
           last_block st' = last_block st
           /\ assigned new = []
           /\ forall env' h' rn0 c0 tl,
                block_number env' = Ok h' ->
                last_block st < h' ->
                contracts = (rn0, c0) :: tl ->
                exists more,
                  trace (world (fst (tick network ev_func env' contracts st')))
                  = trace (world st')
                    ++ AGetLogs rn0 "PostProof" (last_block st + 1) h' :: more).
Proof.
  intros Hh Hlt Hpre Herr Hhard contracts st'.
  split; [apply tick_steps|].
  assert (Hst' : st' = add_trace st1
             [AGetLogs rn "PostProof" (last_block st1 + 1) h;
              APrint (MsgListenerError network (raised_by e));
              ASleep 5]).
  { unfold st', contracts.
    rewrite (tick_reach network ev_func env h pre (rn, c) post st st1 Hh Hlt Hpre).
    rewrite poll_contract_eq. cbn zeta. rewrite Herr, Hhard, backoff_eq.
    unfold add_trace; simpl. rewrite <- app_assoc. reflexivity. }
  split; [exact Hst'|].
  destruct (hoare_sweep network ev_func env h pre st) as (n1 & Hs1 & _ & HA1);
    [simpl; lia|].
  rewrite Hpre in Hs1. cbn [fst] in Hs1.
  pose proof (cache_writes_sweep _ HA1) as Hw1.
  destruct Hs1 as (Ht1 & _ & _ & _ & _ & _ & _ & Hc1).
  split; [rewrite Hst'; simpl; apply Hc1, Hw1|].
  eexists. split; [rewrite Hst'; simpl; rewrite Ht1, <- app_assoc; reflexivity|].
  split; [rewrite cache_writes_app, Hw1; reflexivity|].
  intros Hnp.
  destruct (sweep_unpruned network ev_func env h pre st Hnp)
    as (n1' & Hs1' & Has1 & _ & _).
  rewrite Hpre in Hs1'. cbn [fst] in Hs1'.
  destruct Hs1' as (Ht1' & _ & _ & Hl1 & _).
  rewrite Ht1 in Ht1'. apply app_inv_head in Ht1'. subst n1'.
  rewrite Has1 in Hl1. simpl in Hl1.
  assert (Hlb : last_block st' = last_block st)
    by (rewrite Hst'; simpl; exact Hl1).
  split; [exact Hlb|].
  split; [rewrite assigned_app, Has1; reflexivity|].
  intros env' h' rn0 c0 tl Hh' Hlt' Hcs. rewrite Hcs, <- Hlb.
  apply tick_starts; [exact Hh' | rewrite Hlb; exact Hlt'].
Qed.

(** The amended C3 at work: the first fetch of a pass at height 20 is rate
    limited; the cursor stays at 10 and the cache stays empty. *)
Lemma hard_error_leaves_cursor_witness :
  let st' := fst (tick "fuji" record_event (limited_A 20)
                    [registry_A; registry_B] (loop_state 10)) in
  st' = add_trace (loop_state 10)
          [AGetLogs "RegistryA" "PostProof" 11 20;
           APrint (MsgListenerError "fuji" rate_limited);
           ASleep 5]
  /\ cache (world st') = cache fresh_world.
Proof.
  destruct (hard_error_leaves_cursor "fuji" record_event (limited_A 20) 20
              [] [registry_B] "RegistryA" registry_A.2
              (loop_state 10) (loop_state 10) rate_limited)
    as (_ & Hst & Hcache & _); try reflexivity.
  split; [exact Hst | exact Hcache].
Defined.

(** C4: when a pass has reached the contract [c] and its fetch over
    [[last_block + 1, h]] raises a [ValueError] whose first argument is a
    dictionary with code -32000, polling [c] returns normally, having
    printed the warning and set the cursor to [h]; the sweep goes on with
    the contracts after [c] in the same pass, starting with the fetch for
    the next one; the pass and the run do not raise; and every fetch made
    later in the run, for any contract, starts above [h], so the range that
    failed is not asked for again. *)
Theorem pruned_range_is_skipped {C D : Type} {cache_ops : CacheLike C}
    (network : string) (ev_func : RawLogEvent -> D -> D * result unit)
    (env : TickEnv) (envs : list TickEnv) (h : Z)
    (pre post : list (string * Contract)) (rn : string) (c : Contract)
    (st st1 : State C D) (e : exn) :
  block_number env = Ok h ->
  last_block st < h ->
  sweep network ev_func env h pre st = (st1, Ok tt) ->
  get_logs env c "PostProof" (last_block st1 + 1) h = Raise e ->
  is_pruned_error e = true ->
  let contracts := pre ++ (rn, c) :: post in
  let st2 := skipped_to network h rn st1 in
  poll_contract network ev_func env h (rn, c) st1 = (st2, Ok tt)
  /\ last_block st2 = h
  /\ trace (world st2)
     = trace (world st1)
       ++ [AGetLogs rn "PostProof" (last_block st1 + 1) h;
           APrint (MsgPruned network h); ASetLastBlock h]
  /\ sweep network ev_func env h ((rn, c) :: post) st1
     = sweep network ev_func env h post st2
  /\ snd (run network ev_func (env :: envs) contracts st) = Ok tt
  /\ exists later,
       trace (world (fst (run network ev_func (env :: envs) contracts st)))
       = trace (world st2) ++ later
       /\ (forall rn' en f t, AGetLogs rn' en f t ∈ later -> h < f)
       /\ (forall rn' c' post', post = (rn', c') :: post' ->
             exists later',
               later = AGetLogs rn' "PostProof" (h + 1) h :: later').
Proof.
  intros Hh Hlt Hpre Herr Hpruned contracts st2.
  assert (Hpoll : poll_contract network ev_func env h (rn, c) st1 = (st2, Ok tt)).
  { rewrite poll_contract_eq. cbn zeta. rewrite Herr, Hpruned. reflexivity. }
  split; [exact Hpoll|]. split; [reflexivity|]. split; [reflexivity|].
  split; [rewrite sweep_cons, Hpoll; reflexivity|].
  split; [apply run_steps|].
  unfold contracts. rewrite run_cons.
  rewrite (tick_reach network ev_func env h pre (rn, c) post st st1 Hh Hlt Hpre).
  rewrite Hpoll.
  destruct (rest_of_run_steps network ev_func env h post envs
              (pre ++ (rn, c) :: post) st2) as (n1 & n2 & Ht1 & Hs);
    [simpl; lia|].
  exists (n1 ++ n2). destruct Hs as (Ht & _ & _ & _ & Hf & _).
  split; [exact Ht|]. split; [exact Hf|].
  intros rn' c' post' Hpost. subst post.
  destruct (sweep_starts network ev_func env h rn' c' post' st2) as (m & Hm);
    [simpl; lia|].
  rewrite Hm in Ht1. apply app_inv_head in Ht1. subst n1.
  eexists. simpl. reflexivity.
Qed.

(** C4 at work: contract A is pruned at height 20 with the cursor at 10. *)
Lemma pruned_range_is_skipped_witness :
  poll_contract "fuji" record_event (pruned_for_A 20) 20 registry_A
    (loop_state 10)
  = (skipped_to "fuji" 20 "RegistryA" (loop_state 10), Ok tt).
Proof.
  apply (pruned_range_is_skipped "fuji" record_event (pruned_for_A 20) [] 20
           [] [registry_B] "RegistryA" registry_A.2
           (loop_state 10) (loop_state 10) pruned_error); reflexivity.
Defined.

(** C5, as stated, fails: with the cursor at 10 and the height at 20, the
    history asked of contract A is pruned, which moves the cursor to 20;
    contract B is then asked for the range from 21 to 20 only, and the
    cursor 20 is saved although no fetch for B covers block 15. *)
Lemma cursor_passes_unfetched_range :
  let st' := fst (tick "fuji" record_event (pruned_for_A 20)
                    [registry_A; registry_B] (loop_state 10)) in
  last_block st' = 20
  /\ trace (world st')
     = [AGetLogs "RegistryA" "PostProof" 11 20;
        APrint (MsgPruned "fuji" 20);
        ASetLastBlock 20;
        AGetLogs "RegistryB" "PostProof" 21 20;
        ASetLastBlock 20;
        ACacheSet "fuji_all_contracts" (PyStr "20");
        ASleep 3]
  /\ (covered [registry_A; registry_B] 10 (trace (world st')) 20 -> False).
Proof.
  vm_compute trace. split; [reflexivity|]. split; [reflexivity|].
  intros Hcov.
  destruct (Hcov "RegistryB" registry_B.2) with (b := 15)
    as (f & t & Hin & Hr).
  - apply elem_of_cons. right. apply elem_of_cons. left. reflexivity.
  - lia.
  - repeat (apply elem_of_cons in Hin as [Heq|Hin];
            [try discriminate; try (inversion Heq; subst; lia)|]).
    apply elem_of_nil in Hin. contradiction.
Qed.

(** C5, amended: in a run of any length from any loop state, whatever
    the provider, the handler and the cache do, whenever the cursor is
    assigned a value [n], the trace before that assignment accounts for
    every contract of the loop and every block above the initial cursor and
    up to [n]: a ["PostProof"] fetch for that contract whose range includes
    the block has been attempted, unless the block lies in a range whose
    fetch, for a contract polled earlier in the sweep, was answered with
    the pruned-range error.  The same holds for the cursor at the end of
    the run. *)
Theorem cursor_covered_up_to_pruned_skips {C D : Type}
    {cache_ops : CacheLike C}
    (network : string) (ev_func : RawLogEvent -> D -> D * result unit)
    (envs : list TickEnv) (contracts : list (string * Contract))
    (st : State C D) :
  exists new,
    trace (world (fst (run network ev_func envs contracts st)))
    = trace (world st) ++ new
    /\ (forall pre n post, new = pre ++ ASetLastBlock n :: post ->
          accounted network contracts (last_block st) pre n)
    /\ accounted network contracts (last_block st) new
         (last_block (fst (run network ev_func envs contracts st))).
Proof.
  destruct (run_accounted network ev_func envs contracts (last_block st) [] st)
    as (new & Ht & Hacc & Hcur).
  - lia.
  - intros pre n post Heq. destruct pre; discriminate.
  - intros before rn c after _ b Hb. lia.
  - exists new. auto.
Qed.

(** The amended C5 at work, on the passes of the counterexample followed by
    a quiet pass at height 25: contract A, polled first and answered with
    the pruned-range error, has an attempted fetch for every block from 11
    to the final cursor; every such block is fetched for contract B or
    lies in a range that was answered as pruned for A. *)
Lemma cursor_covered_up_to_pruned_skips_witness :
  exists new,
    trace (world (fst (run "fuji" record_event [pruned_for_A 20; quiet 25]
                         [registry_A; registry_B] (loop_state 10))))
    = trace (world (loop_state 10)) ++ new
    /\ (forall b,
          10 < b <= last_block
                      (fst (run "fuji" record_event [pruned_for_A 20; quiet 25]
                              [registry_A; registry_B] (loop_state 10))) ->
          exists f t, AGetLogs "RegistryA" "PostProof" f t ∈ new /\ f <= b <= t)
    /\ fetched_or_skipped "fuji" [registry_A] "RegistryB" 10 new
         (last_block (fst (run "fuji" record_event [pruned_for_A 20; quiet 25]
                             [registry_A; registry_B] (loop_state 10)))).
Proof.
  destruct (cursor_covered_up_to_pruned_skips "fuji" record_event
              [pruned_for_A 20; quiet 25] [registry_A; registry_B]
              (loop_state 10)) as (new & Ht & _ & Hfin).
  exists new. split; [exact Ht|]. split.
  - intros b Hb.
    destruct (Hfin [] "RegistryA" registry_A.2 [registry_B] eq_refl b Hb)
      as [H|(rn' & c' & f & t & Hin & _)]; [exact H|].
    apply elem_of_nil in Hin. contradiction.
  - exact (Hfin [registry_A] "RegistryB" registry_B.2 [] eq_refl).
Defined.




(** Why the condition on the entry: with a cache that stores the value and
    then fails to acknowledge the write, the save of 42 is logged and
    swallowed all the same, and the next load answers 42. *)
Example failed_save_may_have_stored :
  let key := "fuji_all_contracts" in
  let w' := fst (save_last_block key 42 unacknowledged) in
  snd (save_last_block key 42 unacknowledged) = Ok tt
  /\ trace w' = [ACacheSet key (PyStr "42");
                 APrint (MsgSaveFailed key (OtherException "TimeoutError"))]
  /\ snd (load_last_block key 99 w') = Ok 42.
Proof. vm_compute. repeat split. Qed.

(** C7: when the cache holds nothing under the key of the network, cannot
    be read, or holds a value that [int] rejects, [load_last_block] answers
    the default it was given, the chain height minus 1, and the listener
    starts with that cursor and an empty dedup set. *)
Theorem initial_cursor_is_height_minus_1 {C D : Type} {cache_ops : CacheLike C}
    (network : string) (h : Z) (registry_contracts : list (string * string))
    (abi_map : gmap string pyval) (w : World C D) :
  let key := last_block_key network in
  (cache_get (cache w) key = Ok PyNone
   \/ (exists e, cache_get (cache w) key = Raise e)
   \/ (exists val e, cache_get (cache w) key = Ok val /\ py_int val = Raise e)) ->
  load_last_block key (h - 1) w = (w, Ok (h - 1))
  /\ forall contracts,
       prepare_contracts registry_contracts abi_map = Ok contracts ->
       listener_init network (Ok h) registry_contracts abi_map w
       = ({| cache := cache w; offchain_db := offchain_db w;
             trace := trace w
                      ++ [APrint (MsgListening network (length contracts)
                                    (h - 1 + 1))] |},
          Ok (∅, h - 1, contracts)).
Proof.
  intros key Hcache.
  assert (Hload : load_last_block key (h - 1) w = (w, Ok (h - 1))).
  { rewrite load_last_block_eq. unfold stored_or.
    destruct Hcache as [Hc | [[e Hc] | (val & e & Hc & Hint)]]; rewrite Hc.
    - reflexivity.
    - reflexivity.
    - rewrite Hint. destruct (is_not_None val); reflexivity. }
  split; [exact Hload|].
  intros contracts Hprep.
  unfold listener_init, bind, of_result. fold key.
  rewrite Hload, Hprep. reflexivity.
Qed.

(** C7 on the scenario of the design document: nothing stored, height 100,
    the initial cursor is 99. *)
Lemma initial_cursor_is_height_minus_1_witness :
  let w : World DictCache unit :=
    {| cache := {| entries := ∅; readable := true; writable := true |};
       offchain_db := tt; trace := [] |} in
  load_last_block (last_block_key "fuji") (100 - 1) w = (w, Ok 99).
Proof.
  intros w.
  apply (initial_cursor_is_height_minus_1 "fuji" 100 [] ∅ w).
  left. reflexivity.
Defined.

(** C8: a pass in which the chain height is not above the cursor only
    sleeps 3: it returns normally, appends [ASleep 3] to the trace (no
    fetch, no handler call, no assignment, no cache write) and leaves the
    dedup set, the cursor, the cache and the off-chain store as they
    were. *)
Theorem no_new_blocks_only_sleeps {C D : Type} {cache_ops : CacheLike C}
    (network : string) (ev_func : RawLogEvent -> D -> D * result unit)
    (env : TickEnv) (contracts : list (string * Contract)) (st : State C D)
    (h : Z) :
  block_number env = Ok h ->
  h <= last_block st ->
  let st' := fst (tick network ev_func env contracts st) in
  snd (tick network ev_func env contracts st) = Ok tt
  /\ trace (world st') = trace (world st) ++ [ASleep 3]
  /\ seen_logs st' = seen_logs st
  /\ last_block st' = last_block st
  /\ cache (world st') = cache (world st)
  /\ offchain_db (world st') = offchain_db (world st).
Proof.
  intros Hh Hle. rewrite tick_cases, Hh.
  assert (Hg : (h >? last_block st) = false)
    by (rewrite Z.gtb_ltb; apply Z.ltb_ge; lia).
  rewrite Hg, sleep_eq. simpl. repeat split; reflexivity.
Qed.

(** C8 at work: height 100 with the cursor at 100. *)
Lemma no_new_blocks_only_sleeps_witness :
  trace (world (fst (tick "fuji" record_event (quiet 100)
                       [registry_A; registry_B] (loop_state 100))))
  = trace (world (loop_state 100)) ++ [ASleep 3].
Proof.
  apply (no_new_blocks_only_sleeps "fuji" record_event (quiet 100)
           [registry_A; registry_B] (loop_state 100) 100);
    [reflexivity | simpl; lia].
Defined.

(** C9, as stated, fails: when [cache.set] raises, [reset_last_block] lets
    the exception out while [save_last_block] returns normally. *)
Lemma reset_raises_where_save_returns :
  snd (reset_last_block "fuji_all_contracts" 7 full_disk)
  = Raise (OtherException "OSError")
  /\ snd (save_last_block "fuji_all_contracts" 7 full_disk) = Ok tt.
Proof. split; reflexivity. Qed.

(** C9, amended: [reset_last_block] and [save_last_block] make the same
    [cache.set(key, str(value))] call and leave the same cache; they
    coincide whenever that call succeeds.  When it raises, the reset lets
    the exception out, and the save prints one line and returns. *)
Theorem reset_writes_like_save {C D : Type} {cache_ops : CacheLike C}
    (key : string) (value : Z) (w : World C D) :
  cache (fst (reset_last_block key value w))
  = cache (fst (save_last_block key value w))
  /\ cache (fst (reset_last_block key value w))
     = fst (cache_set (cache w) key (PyStr (py_str value)))
  /\ trace (fst (reset_last_block key value w))
     = trace w ++ [ACacheSet key (PyStr (py_str value))]
  /\ (snd (cache_set (cache w) key (PyStr (py_str value))) = Ok tt ->
      reset_last_block key value w = save_last_block key value w)
  /\ (forall e,
        snd (cache_set (cache w) key (PyStr (py_str value))) = Raise e ->
        snd (reset_last_block key value w) = Raise e
        /\ snd (save_last_block key value w) = Ok tt
        /\ trace (fst (save_last_block key value w))
           = trace (fst (reset_last_block key value w))
             ++ [APrint (MsgSaveFailed key e)]).
Proof.
  unfold reset_last_block, save_last_block, try_except, cache_set_call.
  destruct (cache_set (cache w) key (PyStr (py_str value))) as [c' [[]|e]];
    simpl.
  - split; [reflexivity|]. split; [reflexivity|]. split; [reflexivity|].
    split; [reflexivity|]. intros e' He. discriminate.
  - split; [reflexivity|]. split; [reflexivity|]. split; [reflexivity|].
    split; [intros He; discriminate|].
    intros e' He. inversion He; subst e'.
    split; [reflexivity|]. split; [reflexivity|].
    unfold print, emit, modify; simpl. reflexivity.
Qed.

(** The amended C9 on a writable cache: the two operations coincide. *)
Lemma reset_writes_like_save_witness :
  let w : World DictCache unit :=
    {| cache := {| entries := ∅; readable := true; writable := true |};
       offchain_db := tt; trace := [] |} in
  reset_last_block "fuji_all_contracts" 7 w
  = save_last_block "fuji_all_contracts" 7 w.
Proof.
  intros w.
  apply (reset_writes_like_save "fuji_all_contracts" 7 w).
  reflexivity.
Defined.

(** C10: the key of an event is put into [seen_logs] before the handler is
    called, so the handler runs in a state that already has it.  When a
    pass has reached the contract [c], has dispatched the logs before [ev]
    and the handler raises on the unseen event [ev], the dispatch raises
    with the key marked, the pass ends in the [except] clause, the key is
    still marked after any number of further passes, and in those passes,
    whatever the provider returns, the handler is never called again on an
    event with that key. *)
Theorem failed_dispatch_is_not_retried {C D : Type} {cache_ops : CacheLike C}
    (network : string) (ev_func : RawLogEvent -> D -> D * result unit)
    (env : TickEnv) (envs : list TickEnv) (h : Z)
    (pre post : list (string * Contract)) (rn : string) (c : Contract)
    (st st1 st2 : State C D) (logs1 logs2 : list RawLogEvent)
    (ev : RawLogEvent) (db' : D) (e : exn) :
  block_number env = Ok h ->
  last_block st < h ->
  sweep network ev_func env h pre st = (st1, Ok tt) ->
  get_logs env c "PostProof" (last_block st1 + 1) h
  = Ok (logs1 ++ ev :: logs2) ->
  for_each logs1 (dispatch network ev_func)
    (add_trace st1 [AGetLogs rn "PostProof" (last_block st1 + 1) h])
  = (st2, Ok tt) ->
  dedupe_key_of network ev ∉ seen_logs st2 ->
  ev_func ev (offchain_db (world st2)) = (db', Raise e) ->
  let contracts := pre ++ (rn, c) :: post in
  let marked :=
    {| seen_logs := {[dedupe_key_of network ev]} ∪ seen_logs st2;
       last_block := last_block st2; world := world st2 |} in
  let st3 :=
    {| seen_logs := {[dedupe_key_of network ev]} ∪ seen_logs st2;
       last_block := last_block st2;
       world := {| cache := cache (world st2); offchain_db := db';
                   trace := trace (world st2) ++ [AHandler ev] |} |} in
  dispatch network ev_func ev st2 = call_handler ev_func ev marked
  /\ dispatch network ev_func ev st2 = (st3, Raise e)
  /\ dedupe_key_of network ev ∈ seen_logs st3
  /\ tick network ev_func env contracts st
     = (add_trace st3 [APrint (MsgListenerError network e); ASleep 5], Ok tt)
  /\ dedupe_key_of network ev
     ∈ seen_logs (fst (run network ev_func (env :: envs) contracts st))
  /\ exists later,
       trace (world (fst (run network ev_func (env :: envs) contracts st)))
       = trace (world st3)
         ++ [APrint (MsgListenerError network e); ASleep 5] ++ later
       /\ forall ev', ev' ∈ handled later ->
            dedupe_key_of network ev' <> dedupe_key_of network ev.
Proof.
  intros Hh Hlt Hpre Hlogs Hdisp Hnew Hfail contracts marked st3.
  assert (Hd1 : dispatch network ev_func ev st2 = call_handler ev_func ev marked).
  { unfold dispatch, bind, get, seen_logs_add, modify.
    destruct (decide (dedupe_key_of network ev ∈ seen_logs st2));
      [contradiction | reflexivity]. }
  assert (Hd2 : dispatch network ev_func ev st2 = (st3, Raise e)).
  { rewrite Hd1. unfold call_handler, marked; simpl. rewrite Hfail.
    reflexivity. }
  assert (Hin : dedupe_key_of network ev ∈ seen_logs st3).
  { apply elem_of_union_l, elem_of_singleton. reflexivity. }
  assert (Htick : tick network ev_func env contracts st
     = (add_trace st3 [APrint (MsgListenerError network e); ASleep 5], Ok tt)).
  { unfold contracts.
    rewrite (tick_reach network ev_func env h pre (rn, c) post st st1 Hh Hlt Hpre).
    rewrite poll_contract_eq. cbn zeta. rewrite Hlogs, for_each_app, Hdisp.
    cbn [for_each]. unfold bind at 1. rewrite Hd2, backoff_eq. reflexivity. }
  split; [exact Hd1|]. split; [exact Hd2|]. split; [exact Hin|].
  split; [exact Htick|].
  rewrite run_cons, Htick. cbn [fst].
  destruct (run_steps network ev_func envs contracts
              (add_trace st3 [APrint (MsgListenerError network e); ASleep 5]))
    as (_ & later & Hs).
  destruct Hs as (Ht & Hsub & _ & _ & _ & _ & Hk & _).
  split; [apply Hsub; exact Hin|].
  exists later.
  split; [rewrite Ht; simpl; rewrite <- app_assoc; reflexivity|].
  intros ev' Hev' Heq. destruct (Hk ev' Hev') as [Hnin _].
  apply Hnin. rewrite Heq. exact Hin.
Qed.

(** C10 at work: the handler fails on the event of block 50; the pass ends
    in the [except] clause with the key of the event marked. *)
Lemma failed_dispatch_is_not_retried_witness :
  tick "fuji" failing_handler (emits_at_50 60) [registry_A; registry_B]
    (loop_state 10)
  = (add_trace
       {| seen_logs := {[dedupe_key_of "fuji" proof_at_50]} ∪ ∅;
          last_block := 10;
          world := {| cache := cache fresh_world; offchain_db := [];
                      trace := [AGetLogs "RegistryA" "PostProof" 11 60;
                                AHandler proof_at_50] |} |}
       [APrint (MsgListenerError "fuji" (OtherException "RuntimeError"));
        ASleep 5], Ok tt).
Proof.
  apply (failed_dispatch_is_not_retried "fuji" failing_handler (emits_at_50 60)
           [] 60 [] [registry_B] "RegistryA" registry_A.2
           (loop_state 10) (loop_state 10)
           (add_trace (loop_state 10) [AGetLogs "RegistryA" "PostProof" 11 60])
           [] [] proof_at_50 [] (OtherException "RuntimeError"));
    try reflexivity.
  simpl. apply not_elem_of_empty.
Defined.

(** * Further properties of the code *)

(** ** The cursor store *)

(** X1: a cursor saved with [save_last_block] is the one [load_last_block]
    returns afterwards, whatever default the load is given, on a cache that
    accepts the write and then hands the written string back. *)
Theorem saved_cursor_is_loaded {C D : Type} {cache_ops : CacheLike C}
    (key : string) (n d : Z) (w : World C D) (c' : C) :
  cache_set (cache w) key (PyStr (py_str n)) = (c', Ok tt) ->
  cache_get c' key = Ok (PyStr (py_str n)) ->
  let w' := fst (save_last_block key n w) in
  load_last_block key d w' = (w', Ok n).
Proof.
  intros Hset Hget w'. unfold w'.
  rewrite (save_last_block_ok _ _ _ _ Hset), load_last_block_eq.
  unfold stored_or; simpl. rewrite Hget, py_int_py_str. reflexivity.
Qed.

(** X1 at work: the cursor -7 is saved into an empty cache and loaded with
    the default 99. *)
Lemma saved_cursor_is_loaded_witness :
  snd (load_last_block "fuji_all_contracts" 99
         (fst (save_last_block "fuji_all_contracts" (-7) (world_with ∅))))
  = Ok (-7).
Proof.
  rewrite (saved_cursor_is_loaded "fuji_all_contracts" (-7) 99 (world_with ∅)
             {| entries := {[ "fuji_all_contracts" := PyStr "-7" ]};
                readable := true; writable := true |});
    reflexivity.
Defined.

(** X2: [reset_last_block] replaces whatever [save_last_block] stored, also
    by a lower value: after saving [n] and resetting to [m], a load returns
    [m]. *)
Theorem reset_overrides_saved_cursor {C D : Type} {cache_ops : CacheLike C}
    (key : string) (n m d : Z) (w : World C D) (c1 c2 : C) :
  cache_set (cache w) key (PyStr (py_str n)) = (c1, Ok tt) ->
  cache_set c1 key (PyStr (py_str m)) = (c2, Ok tt) ->
  cache_get c2 key = Ok (PyStr (py_str m)) ->
  let w1 := fst (save_last_block key n w) in
  let w2 := fst (reset_last_block key m w1) in
  snd (reset_last_block key m w1) = Ok tt
  /\ load_last_block key d w2 = (w2, Ok m).
Proof.
  intros Hset1 Hset2 Hget w1 w2. unfold w2, w1.
  rewrite (save_last_block_ok _ _ _ _ Hset1).
  unfold reset_last_block, cache_set_call; simpl. rewrite Hset2. simpl.
  split; [reflexivity|].
  rewrite load_last_block_eq. unfold stored_or; simpl.
  rewrite Hget, py_int_py_str. reflexivity.
Qed.

(** X2 at work: 120 is saved, the cursor is reset to 45, and 45 is
    loaded. *)
Lemma reset_overrides_saved_cursor_witness :
  snd (load_last_block "fuji_all_contracts" 0
         (fst (reset_last_block "fuji_all_contracts" 45
                 (fst (save_last_block "fuji_all_contracts" 120
                         (world_with ∅))))))
  = Ok 45.
Proof.
  refine (f_equal snd
            (proj2 (reset_overrides_saved_cursor "fuji_all_contracts" 120 45 0
                      (world_with ∅)
                      {| entries := {[ "fuji_all_contracts" := PyStr "120" ]};
                         readable := true; writable := true |}
                      {| entries := <[ "fuji_all_contracts" := PyStr "45" ]>
                                      {[ "fuji_all_contracts" := PyStr "120" ]};
                         readable := true; writable := true |} _ _ _)));
    reflexivity.
Defined.

(** ** The start of the listener *)

(** X3: when the cache holds a cursor that [int] accepts (an integer, or
    a decimal literal as an ASCII [str] or as [bytes]: white space around
    it, a sign and single underscores between digits allowed), the listener
    starts from that cursor, whatever the chain height is (below or above
    the stored value), with an empty dedup set, and announces the block
    after it. *)
Theorem listener_resumes_from_stored_cursor {C D : Type}
    {cache_ops : CacheLike C} (network : string) (h n : Z) (val : pyval)
    (registry_contracts : list (string * string))
    (abi_map : gmap string pyval) (contracts : list (string * Contract))
    (w : World C D) :
  cache_get (cache w) (last_block_key network) = Ok val ->
  py_int val = Ok n ->
  prepare_contracts registry_contracts abi_map = Ok contracts ->
  listener_init network (Ok h) registry_contracts abi_map w
  = ({| cache := cache w; offchain_db := offchain_db w;
        trace := trace w
                 ++ [APrint (MsgListening network (length contracts) (n + 1))] |},
     Ok (∅, n, contracts)).
Proof.
  intros Hget Hint Hprep.
  unfold listener_init, bind, of_result.
  rewrite load_last_block_eq. unfold stored_or.
  rewrite Hget, Hint, Hprep.
  destruct val; try discriminate; reflexivity.
Qed.

(** X3 at work: the cache holds " 1_250 ", the chain is at height 100, and
    the listener starts at 1250. *)
Lemma listener_resumes_from_stored_cursor_witness :
  snd (listener_init "fuji" (Ok 100)
         [("RegistryA", "0xA"); ("RegistryB", "0xB")]
         {[ "RegistryA" := PyList []; "RegistryB" := PyList [] ]}
         (world_with {[ "fuji_all_contracts" := PyStr " 1_250 " ]}))
  = Ok (∅, 1250, [registry_A; registry_B]).
Proof.
  rewrite (listener_resumes_from_stored_cursor "fuji" 100 1250
             (PyStr " 1_250 ")
             [("RegistryA", "0xA"); ("RegistryB", "0xB")]
             {[ "RegistryA" := PyList []; "RegistryB" := PyList [] ]}
             [registry_A; registry_B]);
    reflexivity.
Defined.





(** X6: the errors of building the contract list, with the outcome of the
    contract constructor left open.  When the building raises, it stopped
    at a configured registry other than ["ValidatorRegistry"]: either that
    registry has no ABI and the error is its [KeyError], or the constructor
    raised the error for it; every polled registry listed before it has an
    ABI and got its contract instance.  With a constructor that always
    returns, this loop is [prepare_contracts]. *)
Theorem contract_list_fails_at_first_bad_registry
    (contract_of : string -> pyval -> result Contract)
    (registry_contracts : list (string * string))
    (abi_map : gmap string pyval) (e : exn) :
  prepare_contracts_with contract_of registry_contracts abi_map = Raise e ->
  prepare_contracts registry_contracts abi_map
  = prepare_contracts_with contract_built registry_contracts abi_map
  /\ exists before rn addr after,
       registry_contracts = before ++ (rn, addr) :: after
       /\ rn <> "ValidatorRegistry"
       /\ match abi_map !! rn with
          | None => e = KeyError rn
          | Some abi => contract_of addr abi = Raise e
          end
       /\ forall rn' addr', (rn', addr') ∈ before ->
            rn' <> "ValidatorRegistry" ->
            exists abi c,
              abi_map !! rn' = Some abi /\ contract_of addr' abi = Ok c.
Proof.
  intros Hp. split.
  { clear Hp. induction registry_contracts as [|[name addr] rest IH];
      [reflexivity|].
    simpl. rewrite IH. reflexivity. }
  revert Hp. induction registry_contracts as [|[name addr] rest IH]; intros Hp.
  - discriminate.
  - simpl in Hp.
    destruct (String.eqb_spec name "ValidatorRegistry") as [Hv|Hv].
    + destruct (IH Hp) as (before & rn & a & after & Heq & Hrn & He & Hb).
      exists ((name, addr) :: before), rn, a, after.
      split; [rewrite Heq; reflexivity|]. split; [exact Hrn|].
      split; [exact He|].
      intros rn' addr' Hin Hv'. apply elem_of_cons in Hin as [Heq'|Hin].
      * inversion Heq'; subst. contradiction.
      * eapply Hb; eauto.
    + destruct (abi_map !! name) as [abi|] eqn:Hname.
      * destruct (contract_of addr abi) as [c|e'] eqn:Hc.
        -- destruct (prepare_contracts_with contract_of rest abi_map)
             as [cs|e''] eqn:Hrest; [discriminate|].
           inversion Hp; subst e''.
           destruct (IH eq_refl)
             as (before & rn & a & after & Heq & Hrn & He & Hb).
           exists ((name, addr) :: before), rn, a, after.
           split; [rewrite Heq; reflexivity|]. split; [exact Hrn|].
           split; [exact He|].
           intros rn' addr' Hin Hv'. apply elem_of_cons in Hin as [Heq'|Hin].
           ++ inversion Heq'; subst. exists abi, c. split; assumption.
           ++ eapply Hb; eauto.
        -- inversion Hp; subst e'.
           exists [], name, addr, rest.
           split; [reflexivity|]. split; [exact Hv|].
           split; [rewrite Hname; exact Hc|].
           intros rn' addr' Hin. apply elem_of_nil in Hin. contradiction.
      * inversion Hp; subst e.
        exists [], name, addr, rest.
        split; [reflexivity|]. split; [exact Hv|].
        split; [rewrite Hname; reflexivity|].
        intros rn' addr' Hin. apply elem_of_nil in Hin. contradiction.
Qed.

(** X6 at work: registry B has an ABI but an address that the constructor
    rejects, and registry C has no ABI; the building stops at a registry
    for which the constructor raised or which has no ABI. *)
Lemma contract_list_fails_at_first_bad_registry_witness :
  let contract_of := fun (addr : string) (abi : pyval) =>
    if String.eqb addr "0xB" then Raise (OtherException "InvalidAddress")
    else contract_built addr abi in
  let abi_map : gmap string pyval :=
    {[ "RegistryA" := PyList []; "RegistryB" := PyList [] ]} in
  exists before rn addr after,
    [("RegistryA", "0xA"); ("RegistryB", "0xB"); ("RegistryC", "0xC")]
    = before ++ (rn, addr) :: after
    /\ rn <> "ValidatorRegistry"
    /\ match abi_map !! rn with
       | None => OtherException "InvalidAddress" = KeyError rn
       | Some abi => contract_of addr abi = Raise (OtherException "InvalidAddress")
       end.
Proof.
  intros contract_of abi_map.
  destruct (contract_list_fails_at_first_bad_registry contract_of
              [("RegistryA", "0xA"); ("RegistryB", "0xB"); ("RegistryC", "0xC")]
              abi_map (OtherException "InvalidAddress"))
    as (_ & before & rn & addr & after & Heq & Hrn & He & _); [reflexivity|].
  exists before, rn, addr, after. auto.
Defined.

(** ** Keys *)

(** X7: the cursor keys of two networks are equal only when the networks
    are: listeners of different networks never read or write the same
    cursor entry. *)
Theorem cursor_keys_differ (network1 network2 : string) :
  last_block_key network1 = last_block_key network2 <-> network1 = network2.
Proof.
  split; [apply string_app_inv_tail | intros ->; reflexivity].
Qed.

(** X8: two logs get the same dedupe key exactly when they have the same
    identity [(network, transactionHash, logIndex)]: the hexadecimal
    rendering of the transaction hash loses nothing, so the dedup set never
    takes a log with a new identity for one already seen. *)
Theorem dedupe_key_is_the_identity (network : string) (ev1 ev2 : RawLogEvent) :
  dedupe_key_of network ev1 = dedupe_key_of network ev2
  <-> event_identity network ev1 = event_identity network ev2.
Proof.
  unfold dedupe_key_of, event_identity. split; intros Heq.
  - inversion Heq as [[Hh Hi]]. apply hex_inj in Hh. rewrite Hh. reflexivity.
  - inversion Heq as [[Hh Hi]]. reflexivity.
Qed.

(** ** One pass of the loop *)

(** X9: a pass of the loop never raises, whatever the provider, the
    handler and the cache do, and it sleeps exactly once, at its end:
    either 3 after a pass without error, or 5 right after printing the
    error that ended the pass.  A pass that ends with an error has written
    nothing to the cache. *)
Theorem pass_ends_with_one_sleep {C D : Type} {cache_ops : CacheLike C}
    (network : string) (ev_func : RawLogEvent -> D -> D * result unit)
    (env : TickEnv) (contracts : list (string * Contract)) (st : State C D) :
  snd (tick network ev_func env contracts st) = Ok tt
  /\ ((exists body,
         trace (world (fst (tick network ev_func env contracts st)))
         = trace (world st) ++ body ++ [ASleep 3]
         /\ Forall pass_action body)
      \/ (exists body e,
            trace (world (fst (tick network ev_func env contracts st)))
            = trace (world st) ++ body
              ++ [APrint (MsgListenerError network e); ASleep 5]
            /\ Forall pass_action body
            /\ cache_writes body = []
            /\ cache (world (fst (tick network ev_func env contracts st)))
               = cache (world st))).
Proof.
  split; [apply tick_steps|].
  rewrite tick_cases.
  destruct (block_number env) as [h|e].
  - destruct (h >? last_block st) eqn:Hg.
    + apply Z.gtb_lt in Hg.
      destruct (hoare_sweep network ev_func env h contracts st)
        as (n1 & Hs1 & Hle1 & HA1); [simpl; lia|].
      destruct Hs1 as (Ht1 & _ & _ & _ & _ & _ & _ & Hc1).
      destruct (sweep network ev_func env h contracts st) as [st1 [[]|e]];
        cbn [fst snd] in *.
      * left. destruct (commit_trace network h st1)
          as (w' & msgs & Heq & Ht & Hmsgs & _).
        rewrite Heq, sleep_eq. cbn [fst world trace add_trace].
        exists (n1 ++ [ASetLastBlock h;
                       ACacheSet (last_block_key network) (PyStr (py_str h))]
                   ++ msgs).
        split; [rewrite Ht, Ht1, <- !app_assoc; reflexivity|].
        apply Forall_app. split; [apply sweep_action_pass, HA1|].
        destruct Hmsgs as [->|[e ->]]; repeat constructor.
      * right. rewrite backoff_eq. cbn [fst world trace add_trace cache].
        exists n1, e. split; [rewrite Ht1, <- app_assoc; reflexivity|].
        split; [apply sweep_action_pass, HA1|].
        split; [apply cache_writes_sweep, HA1|].
        apply Hc1, cache_writes_sweep, HA1.
    + left. rewrite sleep_eq. exists []. split; [reflexivity | constructor].
  - right. rewrite backoff_eq. exists [], e.
    split; [reflexivity|]. split; [constructor|]. split; reflexivity.
Qed.

(** X10: in a pass that sees new blocks, with a provider that answers
    every fetch with logs or with the pruned-range error and a handler that
    never raises, the cursor ends at the height read in the pass, that
    height is written once to the cache under the key of the network, after
    the sweep, and the pass ends with the sleep of 3. *)
Theorem healthy_pass_advances_cursor {C D : Type} {cache_ops : CacheLike C}
    (network : string) (ev_func : RawLogEvent -> D -> D * result unit)
    (env : TickEnv) (contracts : list (string * Contract)) (st : State C D)
    (h : Z) :
  block_number env = Ok h ->
  last_block st < h ->
  answers env ->
  (forall ev db, snd (ev_func ev db) = Ok tt) ->
  let st' := fst (tick network ev_func env contracts st) in
  let key := last_block_key network in
  last_block st' = h
  /\ cache (world st') = fst (cache_set (cache (world st)) key (PyStr (py_str h)))
  /\ exists body msgs,
       trace (world st')
       = trace (world st) ++ body
         ++ [ASetLastBlock h; ACacheSet key (PyStr (py_str h))]
         ++ msgs ++ [ASleep 3]
       /\ cache_writes body = []
       /\ (msgs = [] \/ exists e, msgs = [APrint (MsgSaveFailed key e)]).
Proof.
  intros Hh Hlt Hans Hok st' key. unfold st'.
  rewrite tick_cases, Hh.
  assert (Hg : (h >? last_block st) = true) by (apply Z.gtb_lt; lia).
  rewrite Hg.
  pose proof (sweep_ok network ev_func env h contracts st Hans Hok) as Hsw.
  destruct (hoare_sweep network ev_func env h contracts st)
    as (n1 & Hs1 & Hle1 & HA1); [simpl; lia|].
  destruct Hs1 as (Ht1 & _ & _ & _ & _ & _ & _ & Hc1).
  destruct (sweep network ev_func env h contracts st) as [st1 r];
    cbn [fst snd] in *. subst r.
  destruct (commit_trace network h st1)
    as (w' & msgs & Heq & Ht & Hmsgs & _ & Hcache).
  rewrite Heq, sleep_eq. cbn [fst world trace add_trace last_block cache].
  split; [reflexivity|].
  split; [rewrite Hcache, (Hc1 (cache_writes_sweep _ HA1)); reflexivity|].
  exists n1, msgs.
  split; [rewrite Ht, Ht1, <- !app_assoc; reflexivity|].
  split; [apply cache_writes_sweep, HA1 | exact Hmsgs].
Qed.

(** X10 at work: contract A is pruned, contract B has no logs; the cursor
    goes from 10 to 20. *)
Lemma healthy_pass_advances_cursor_witness :
  last_block (fst (tick "fuji" record_event (pruned_for_A 20)
                     [registry_A; registry_B] (loop_state 10))) = 20.
Proof.
  apply (healthy_pass_advances_cursor "fuji" record_event (pruned_for_A 20)
           [registry_A; registry_B] (loop_state 10) 20).
  - reflexivity.
  - reflexivity.
  - intros c en f t. simpl. destruct (is_A c); reflexivity.
  - intros ev db. reflexivity.
Defined.

(** X11: after such a pass on a cache that accepts the write and hands the
    written string back, a listener started afresh on that cache resumes at
    the height the pass reached, whatever the chain height is at the
    restart. *)
Theorem restart_resumes_at_saved_cursor {C D : Type} {cache_ops : CacheLike C}
    (network : string) (ev_func : RawLogEvent -> D -> D * result unit)
    (env : TickEnv) (contracts : list (string * Contract)) (st : State C D)
    (h h0 : Z) (c' : C) (registry_contracts : list (string * string))
    (abi_map : gmap string pyval) (contracts' : list (string * Contract)) :
  block_number env = Ok h ->
  last_block st < h ->
  answers env ->
  (forall ev db, snd (ev_func ev db) = Ok tt) ->
  cache_set (cache (world st)) (last_block_key network) (PyStr (py_str h))
  = (c', Ok tt) ->
  cache_get c' (last_block_key network) = Ok (PyStr (py_str h)) ->
  prepare_contracts registry_contracts abi_map = Ok contracts' ->
  let st' := fst (tick network ev_func env contracts st) in
  snd (listener_init network (Ok h0) registry_contracts abi_map (world st'))
  = Ok (∅, h, contracts').
Proof.
  intros Hh Hlt Hans Hok Hset Hget Hprep st'.
  assert (Hcache : cache (world st') = c').
  { unfold st'. rewrite tick_cases, Hh.
    assert (Hg : (h >? last_block st) = true) by (apply Z.gtb_lt; lia).
    rewrite Hg.
    pose proof (sweep_ok network ev_func env h contracts st Hans Hok) as Hsw.
    destruct (hoare_sweep network ev_func env h contracts st)
      as (n1 & Hs1 & Hle1 & HA1); [simpl; lia|].
    destruct Hs1 as (Ht1 & _ & _ & _ & _ & _ & _ & Hc1).
    destruct (sweep network ev_func env h contracts st) as [st1 r];
      cbn [fst snd] in *. subst r.
    destruct (commit_trace network h st1)
      as (w' & msgs & Heq & _ & _ & _ & Hcache).
    rewrite Heq, sleep_eq. cbn [fst world cache add_trace].
    rewrite Hcache, (Hc1 (cache_writes_sweep _ HA1)), Hset. reflexivity. }
  unfold listener_init, bind, of_result.
  rewrite load_last_block_eq. unfold stored_or.
  rewrite Hcache, Hget, py_int_py_str, Hprep. reflexivity.
Qed.

(** X11 at work: a quiet pass at height 20 from the cursor 10, then a
    restart at chain height 500. *)
Lemma restart_resumes_at_saved_cursor_witness :
  snd (listener_init "fuji" (Ok 500) [("RegistryA", "0xA")]
         {[ "RegistryA" := PyList [] ]}
         (world (fst (tick "fuji" record_event (quiet 20)
                        [registry_A; registry_B] (loop_state 10)))))
  = Ok (∅, 20, [registry_A]).
Proof.
  apply (restart_resumes_at_saved_cursor "fuji" record_event (quiet 20)
           [registry_A; registry_B] (loop_state 10) 20 500
           {| entries := {[ "fuji_all_contracts" := PyStr "20" ]};
              readable := true; writable := true |}).
  - reflexivity.
  - reflexivity.
  - intros c en f t. exact I.
  - intros ev db. reflexivity.
  - reflexivity.
  - reflexivity.
  - reflexivity.
Defined.

(** ** The passes of a run *)

(** X12: in the passes made from any loop state, every cache write goes to
    the key of the network and stores the decimal string of a cursor
    value; the values written rise strictly, the first one is above the
    cursor of the starting state, and none is above the cursor at the
    end. *)
Theorem persisted_cursor_rises {C D : Type} {cache_ops : CacheLike C}
    (network : string) (ev_func : RawLogEvent -> D -> D * result unit)
    (envs : list TickEnv) (contracts : list (string * Contract))
    (st : State C D) :
  exists new ns,
    trace (world (fst (run network ev_func envs contracts st)))
    = trace (world st) ++ new
    /\ cache_writes new
       = (fun n => (last_block_key network, PyStr (py_str n))) <$> ns
    /\ rising (last_block st) ns
    /\ last_from (last_block st) ns
       <= last_block (fst (run network ev_func envs contracts st)).
Proof.
  revert st. induction envs as [|env envs IH]; intros st.
  - exists [], []. simpl. rewrite app_nil_r.
    split; [reflexivity|]. split; [reflexivity|]. split; [exact I | lia].
  - rewrite run_cons.
    destruct (tick_writes network ev_func env contracts st)
      as (n1 & Ht1 & Hcase).
    destruct (IH (fst (tick network ev_func env contracts st)))
      as (n2 & ns2 & Ht2 & Hw2 & Hr2 & Hl2).
    destruct Hcase as [[Hw1 Hle]|[Hw1 Hlt]].
    + exists (n1 ++ n2), ns2.
      split; [rewrite Ht2, Ht1, app_assoc; reflexivity|].
      split; [rewrite cache_writes_app, Hw1; exact Hw2|].
      split; [eapply rising_weaken; eauto|].
      etransitivity; [apply last_from_mono, Hle | exact Hl2].
    + exists (n1 ++ n2),
        (last_block (fst (tick network ev_func env contracts st)) :: ns2).
      split; [rewrite Ht2, Ht1, app_assoc; reflexivity|].
      split; [rewrite cache_writes_app, Hw1, Hw2; reflexivity|].
      split; [split; [exact Hlt | exact Hr2] | exact Hl2].
Qed.

(** X13: a loop over the logs of one fetch calls the handler on the first
    log of each key that is not yet in the dedup set, in the order the
    provider returned them, and does nothing else: the trace grows by
    those calls only, the dedup set by their keys, the off-chain store by
    their effects, and the cursor and the cache stay.  When the loop
    returns, every such log was handed over; when it raises, the calls
    stop with the log on which the handler raised, and the logs after it
    are not handed over in this pass. *)
Theorem logs_dispatched_in_order {C D : Type}
    (network : string) (handler : RawLogEvent -> D -> D * result unit)
    (logs : list RawLogEvent) (st : State C D) :
  exists called,
    let st' := fst (for_each logs (dispatch network handler) st) in
    trace (world st') = trace (world st) ++ (AHandler <$> called)
    /\ seen_logs st' = keys_of network called ∪ seen_logs st
    /\ offchain_db (world st')
       = handler_effects handler called (offchain_db (world st))
    /\ last_block st' = last_block st
    /\ cache (world st') = cache (world st)
    /\ match snd (for_each logs (dispatch network handler) st) with
       | Ok _ => called = fresh_logs network (seen_logs st) logs
       | Raise e =>
           exists done ev rest,
             fresh_logs network (seen_logs st) logs = done ++ ev :: rest
             /\ called = done ++ [ev]
             /\ snd (handler ev (handler_effects handler done
                                   (offchain_db (world st))))
                = Raise e
       end.
Proof.
  revert st. induction logs as [|ev logs IH]; intros st.
  - exists []. simpl. rewrite app_nil_r, keys_of_nil, union_empty_l_L.
    repeat split; reflexivity.
  - cbn [for_each fresh_logs]. unfold bind.
    destruct (decide (dedupe_key_of network ev ∈ seen_logs st)) as [Hin|Hnin].
    + rewrite (dispatch_seen network handler ev st Hin). apply IH.
    + rewrite (dispatch_unseen network handler ev st Hnin).
      destruct (handler ev (offchain_db (world st))) as [db' r] eqn:Hev.
      cbn [fst snd]. destruct r as [[]|e].
      * match goal with |- context [for_each logs _ ?s] =>
          destruct (IH s) as (called & Ht & Hs & Hd & Hl & Hc & Hr) end.
        cbn [seen_logs last_block world offchain_db trace cache] in *.
        exists (ev :: called). cbn zeta.
        split; [rewrite Ht, <- app_assoc; reflexivity|].
        split; [rewrite Hs, keys_of_cons; apply union_swap|].
        split; [rewrite Hd; unfold handler_effects; simpl; rewrite Hev;
                reflexivity|].
        split; [exact Hl|]. split; [exact Hc|].
        match goal with |- context [for_each logs ?b ?s] =>
          destruct (for_each logs b s) as [st2 [[]|e]] end; cbn [fst snd] in *.
        -- rewrite Hr. reflexivity.
        -- destruct Hr as (done & ev' & rest & Hf & Hcalled & Hraise).
           exists (ev :: done), ev', rest.
           split; [rewrite Hf; reflexivity|].
           split; [rewrite Hcalled; reflexivity|].
           unfold handler_effects in *. simpl. rewrite Hev. exact Hraise.
      * exists [ev]. cbn zeta.
        cbn [fst snd seen_logs last_block world offchain_db trace cache].
        split; [reflexivity|].
        split; [rewrite keys_of_cons, keys_of_nil, union_empty_r_L; reflexivity|].
        split; [unfold handler_effects; simpl; rewrite Hev; reflexivity|].
        split; [reflexivity|]. split; [reflexivity|].
        exists [], ev, (fresh_logs network
                          ({[dedupe_key_of network ev]} ∪ seen_logs st) logs).
        split; [reflexivity|]. split; [reflexivity|].
        unfold handler_effects; simpl. rewrite Hev. reflexivity.
Qed.

(** X14: over the passes made from any loop state, the dedup set grows by
    exactly the keys of the events handed to the handler, and the
    off-chain store is changed by those handler calls only, applied in
    call order, the calls that raised included. *)
Theorem only_handler_calls_change_the_store {C D : Type}
    {cache_ops : CacheLike C}
    (network : string) (ev_func : RawLogEvent -> D -> D * result unit)
    (envs : list TickEnv) (contracts : list (string * Contract))
    (st : State C D) :
  exists new,
    trace (world (fst (run network ev_func envs contracts st)))
    = trace (world st) ++ new
    /\ seen_logs (fst (run network ev_func envs contracts st))
       = keys_of network (handled new) ∪ seen_logs st
    /\ offchain_db (world (fst (run network ev_func envs contracts st)))
       = handler_effects ev_func (handled new) (offchain_db (world st)).
Proof.
  revert st. induction envs as [|env envs IH]; intros st.
  - exists []. simpl. rewrite app_nil_r, keys_of_nil, union_empty_l_L. auto.
  - rewrite run_cons.
    destruct (touched_tick network ev_func env contracts st) as (n1 & H1).
    destruct (IH (fst (tick network ev_func env contracts st))) as (n2 & H2).
    exists (n1 ++ n2).
    apply (touched_trans network ev_func st _ _ n1 n2 H1 H2).
Qed.

(** X15: every fetch the listener makes is a ["PostProof"] fetch for a
    registry of the configuration that has an ABI and is not
    ["ValidatorRegistry"]: that registry is never polled. *)
Theorem only_configured_registries_are_polled {C D : Type}
    {cache_ops : CacheLike C}
    (network : string) (ev_func : RawLogEvent -> D -> D * result unit)
    (height : result Z) (registry_contracts : list (string * string))
    (abi_map : gmap string pyval) (envs : list TickEnv) (w : World C D) :
  exists new,
    trace (fst (network_validator_listener network ev_func height
                  registry_contracts abi_map envs w))
    = trace w ++ new
    /\ forall rn en f t, AGetLogs rn en f t ∈ new ->
         en = "PostProof"
         /\ rn <> "ValidatorRegistry"
         /\ is_Some (abi_map !! rn)
         /\ exists addr, (rn, addr) ∈ registry_contracts.
Proof.
  unfold network_validator_listener, listener_init, bind, of_result.
  destruct height as [h|e].
  2:{ exists []. simpl. rewrite app_nil_r. split; [reflexivity|].
      intros rn en f t Hin. apply elem_of_nil in Hin. contradiction. }
  rewrite load_last_block_eq.
  destruct (prepare_contracts registry_contracts abi_map) as [cs|e] eqn:Hp.
  2:{ exists []. simpl. rewrite app_nil_r. split; [reflexivity|].
      intros rn en f t Hin. apply elem_of_nil in Hin. contradiction. }
  simpl.
  match goal with
  | |- context [run _ _ _ _ ?s] =>
      destruct (run_fetches_in network ev_func (fst <$> cs) envs cs s)
        as (new & Ht & HA);
      [intros rc Hrc; apply list_elem_of_fmap; exists rc; auto|];
      destruct (run network ev_func envs cs s) as [st' r]
  end.
  simpl in *. eexists. split; [rewrite Ht, <- app_assoc; reflexivity|].
  intros rn en f t Hin. apply elem_of_cons in Hin as [Heq|Hin]; [discriminate|].
  rewrite Forall_forall in HA. destruct (HA _ Hin) as [Hrn Hen].
  split; [exact Hen|].
  apply list_elem_of_fmap in Hrn as ([rn' c] & Hrn & Hrc). simpl in Hrn. subst rn'.
  apply (prepare_contracts_elem _ _ _ Hp) in Hrc as (Hv & Hreg & Habi).
  split; [exact Hv|]. split; [eexists; exact Habi|].
  eexists. exact Hreg.
Qed.

(** X16: after a pass with an answering provider and a handler that never
    raises, a pass that reads the same height, or a lower one, only sleeps:
    no range is fetched again. *)
Theorem no_refetch_at_same_height {C D : Type} {cache_ops : CacheLike C}
    (network : string) (ev_func : RawLogEvent -> D -> D * result unit)
    (env env2 : TickEnv) (contracts : list (string * Contract))
    (st : State C D) (h h2 : Z) :
  block_number env = Ok h ->
  last_block st < h ->
  answers env ->
  (forall ev db, snd (ev_func ev db) = Ok tt) ->
  block_number env2 = Ok h2 ->
  h2 <= h ->
  let st' := fst (tick network ev_func env contracts st) in
  tick network ev_func env2 contracts st' = (add_trace st' [ASleep 3], Ok tt).
Proof.
  intros Hh Hlt Hans Hok Hh2 Hle st'.
  pose proof (healthy_tick_cursor network ev_func env contracts st h
                Hh Hlt Hans Hok) as Hcur.
  fold st' in Hcur.
  rewrite tick_cases, Hh2.
  assert (Hg : (h2 >? last_block st') = false)
    by (rewrite Z.gtb_ltb; apply Z.ltb_ge; lia).
  rewrite Hg. apply sleep_eq.
Qed.

(** X16 at work: two quiet passes at height 20 from the cursor 10. *)
Lemma no_refetch_at_same_height_witness :
  trace (world (fst (run "fuji" record_event [quiet 20; quiet 20]
                       [registry_A; registry_B] (loop_state 10))))
  = trace (world (fst (tick "fuji" record_event (quiet 20)
                         [registry_A; registry_B] (loop_state 10))))
    ++ [ASleep 3].
Proof.
  rewrite run_cons. unfold run. cbn [for_each]. unfold bind.
  rewrite (no_refetch_at_same_height "fuji" record_event (quiet 20) (quiet 20)
             [registry_A; registry_B] (loop_state 10) 20 20).
  - reflexivity.
  - reflexivity.
  - reflexivity.
  - intros c en f t. exact I.
  - intros ev db. reflexivity.
  - reflexivity.
  - lia.
Defined.

(** X17: two passes in a row, the first with an answering provider, the
    second with a provider that returns logs for every fetch, and a
    handler that never raises: the second pass fetches, for every
    contract, the range that starts right after the height the first pass
    reached and ends at the new height, makes no fetch that starts at or
    below the old height, and ends with the cursor at the new height. *)
Theorem consecutive_passes_fetch_adjacent_ranges {C D : Type}
    {cache_ops : CacheLike C}
    (network : string) (ev_func : RawLogEvent -> D -> D * result unit)
    (env env2 : TickEnv) (contracts : list (string * Contract))
    (st : State C D) (h h2 : Z) :
  block_number env = Ok h ->
  last_block st < h ->
  answers env ->
  (forall ev db, snd (ev_func ev db) = Ok tt) ->
  block_number env2 = Ok h2 ->
  h < h2 ->
  (forall c en f t, exists logs, get_logs env2 c en f t = Ok logs) ->
  let st' := fst (tick network ev_func env contracts st) in
  let st'' := fst (tick network ev_func env2 contracts st') in
  exists new,
    trace (world st'') = trace (world st') ++ new
    /\ (forall rn c, (rn, c) ∈ contracts ->
          AGetLogs rn "PostProof" (h + 1) h2 ∈ new)
    /\ (forall rn en f t, AGetLogs rn en f t ∈ new -> h < f)
    /\ last_block st'' = h2.
Proof.
  intros Hh Hlt Hans Hok Hh2 Hlt2 Hlogs st' st''.
  pose proof (healthy_tick_cursor network ev_func env contracts st h
                Hh Hlt Hans Hok) as Hcur.
  fold st' in Hcur.
  assert (Hans2 : answers env2).
  { intros c en f t. destruct (Hlogs c en f t) as [logs ->]. exact I. }
  pose proof (healthy_tick_cursor network ev_func env2 contracts st' h2
                Hh2 ltac:(lia) Hans2 Hok) as Hcur2.
  fold st'' in Hcur2.
  destruct (tick_steps network ev_func env2 contracts st') as (_ & new & Hs).
  fold st'' in Hs.
  destruct Hs as (Ht & _ & _ & _ & Hf & _).
  exists new. split; [exact Ht|].
  split; [|split; [intros rn en f t Hin; rewrite <- Hcur; eapply Hf, Hin
                  | exact Hcur2]].
  intros rn c Hin.
  destruct (sweep_unpruned network ev_func env2 h2 contracts st')
    as (n1 & Hs1 & _ & _ & Hall).
  { intros rc _. destruct (Hlogs rc.2 "PostProof" (last_block st' + 1) h2)
      as [logs ->]. reflexivity. }
  pose proof (sweep_ok network ev_func env2 h2 contracts st' Hans2 Hok) as Hsw.
  specialize (Hall Hsw rn c Hin). rewrite Hcur in Hall.
  destruct Hs1 as (Ht1 & _).
  unfold st'' in Ht. rewrite tick_cases, Hh2 in Ht.
  assert (Hg : (h2 >? last_block st') = true) by (apply Z.gtb_lt; lia).
  rewrite Hg in Ht.
  destruct (sweep network ev_func env2 h2 contracts st') as [st1 r];
    cbn [fst snd] in *. subst r.
  destruct (commit_trace network h2 st1) as (w' & msgs & Heq & Htc & _).
  rewrite Heq, sleep_eq in Ht. cbn [fst world trace add_trace] in Ht.
  rewrite Htc, Ht1, <- !app_assoc in Ht. apply app_inv_head in Ht.
  rewrite <- Ht. apply elem_of_app. left. exact Hall.
Qed.

(** X17 at work: quiet passes at heights 20 and 25 from the cursor 10;
    the second pass ends at 25. *)
Lemma consecutive_passes_fetch_adjacent_ranges_witness :
  exists new,
    trace (world (fst (tick "fuji" record_event (quiet 25)
                         [registry_A; registry_B]
                         (fst (tick "fuji" record_event (quiet 20)
                                 [registry_A; registry_B] (loop_state 10))))))
    = trace (world (fst (tick "fuji" record_event (quiet 20)
                           [registry_A; registry_B] (loop_state 10))))
      ++ new
    /\ AGetLogs "RegistryB" "PostProof" (20 + 1) 25 ∈ new.
Proof.
  destruct (consecutive_passes_fetch_adjacent_ranges "fuji" record_event
              (quiet 20) (quiet 25) [registry_A; registry_B] (loop_state 10)
              20 25) as (new & Ht & Hall & _).
  - reflexivity.
  - reflexivity.
  - intros c en f t. exact I.
  - intros ev db. reflexivity.
  - reflexivity.
  - lia.
  - intros c en f t. exists []. reflexivity.
  - exists new. split; [exact Ht|].
    apply (Hall "RegistryB" registry_B.2).
    apply elem_of_cons. right. apply elem_of_cons. left. reflexivity.
Defined.

(** X18: a sweep polls the contracts in the order of the contract list,
    each at most once: the registries fetched are a prefix of the names of
    the list, and all of them when the sweep returns. *)
Theorem contracts_polled_in_order {C D : Type} {cache_ops : CacheLike C}
    (network : string) (ev_func : RawLogEvent -> D -> D * result unit)
    (env : TickEnv) (h : Z) (contracts : list (string * Contract))
    (st : State C D) :
  exists new,
    trace (world (fst (sweep network ev_func env h contracts st)))
    = trace (world st) ++ new
    /\ fetched_names new `prefix_of` (fst <$> contracts)
    /\ (snd (sweep network ev_func env h contracts st) = Ok tt ->
        fetched_names new = fst <$> contracts).
Proof.
  revert st. induction contracts as [|[rn c] cs IH]; intros st.
  - exists []. simpl. rewrite app_nil_r.
    split; [reflexivity|]. split; [reflexivity | auto].
  - rewrite sweep_cons.
    destruct (poll_contract_fetched network ev_func env h rn c st)
      as (n1 & Ht1 & Hf1).
    destruct (poll_contract network ev_func env h (rn, c) st) as [st1 [[]|e]];
      cbn [fst snd] in *.
    + destruct (IH st1) as (n2 & Ht2 & Hp2 & Hok2).
      exists (n1 ++ n2). split; [rewrite Ht2, Ht1, app_assoc; reflexivity|].
      rewrite fetched_names_app, Hf1, fmap_cons. simpl.
      split; [apply prefix_cons, Hp2|].
      intros Hok. rewrite (Hok2 Hok). reflexivity.
    + exists n1. split; [exact Ht1|]. rewrite Hf1, fmap_cons. simpl.
      split; [apply prefix_cons, prefix_nil | discriminate].
Qed.
